(** * miner/payload_building.go: the payload cache and its background improver

    A shallow embedding of [Payload] (the mutex-and-condition-variable guarded
    holder of the empty and the full block), of its methods [update],
    [Resolve], [ResolveEmpty], [ResolveFull], and of [worker.buildPayload]
    with the goroutine it spawns.

    - Pointers that the code compares with [nil] are [option]s; the mutex,
      the [stop] channel and the condition variable are fields of the record
      with their Go failure modes written out (unlocking an unlocked mutex
      and closing a closed channel panic, locking a held mutex blocks).
    - Every method body is a computation in a small state monad over the
      payload whose outcomes are [Done], [Panic] and [Blocked].
    - [cond.Wait] splits [ResolveFull] in two critical sections: the part up
      to the suspension and the part that runs after a [Broadcast].
    - The concurrent behaviour of one build request is a labelled step
      relation whose steps are the critical sections, the cases of the
      goroutine's [select], the firing of timers and the passing of time. *)

From stdpp Require Import base numbers list gmap relations.

Local Open Scope Z_scope.

(** Goroutine identifiers (callers of [ResolveFull]). *)
Definition tid := nat.

(** [time.Duration] and instants, both in nanoseconds. *)
Definition Duration := Z.
Definition Second : Duration := 1000000000.

(** ** [time.Timer] *)

(** [deadline = Some t]: the timer is armed and fires at instant [t].
    [C]: the timer's channel (capacity one) holds a value. *)
Record Timer := mkTimer { deadline : option Z; C : bool }.

Definition NewTimer (now : Z) (d : Duration) : Timer :=
  {| deadline := Some (now + d); C := false |}.

(** The runtime delivers an expired timer: it is disarmed and its channel
    is filled. *)
Definition fire (t : Timer) : Timer := {| deadline := None; C := true |}.

Definition expired (now : Z) (t : Timer) : Prop :=
  exists at_, deadline t = Some at_ /\ at_ <= now.

(** [<-t.C] *)
Definition recv (t : Timer) : Timer := {| deadline := deadline t; C := false |}.

Definition Timer_Reset (now : Z) (d : Duration) (t : Timer) : Timer :=
  {| deadline := Some (now + d); C := C t |}.

Definition Timer_Stop (t : Timer) : Timer :=
  {| deadline := None; C := C t |}.

(** A timer variable before [time.NewTimer] has run. *)
Definition noTimer : Timer := {| deadline := None; C := false |}.

(** ** [math/big]: [x.Cmp(y)] is -1, 0 or +1 *)
Definition big_Cmp (x y : Z) : Z :=
  match x ?= y with
  | Lt => -1
  | Eq => 0
  | Gt => 1
  end.

(** ** [sync.Cond] *)

(** [waiting]: the goroutines suspended in [Wait] (the notify list).
    [notified]: the goroutines a [Broadcast] has woken and that have not yet
    re-acquired the mutex. *)
Record Cond := mkCond { waiting : list tid; notified : list tid }.

Section PayloadBuilding.

(** [types.Block], [beacon.ExecutableDataV1], [common.Hash], [common.Address]
    and [error] are declared outside this file. *)
Context {Block ExecutableData Hash Address error : Type}.

(** [beacon.BlockToExecutableData], applied to a block that is not [nil]. *)
Context (BlockToExecutableData : Block -> ExecutableData).

(** [BuildPayloadArgs] *)
Record BuildPayloadArgs := mkArgs {
  Parent : Hash;
  Timestamp : Z;
  FeeRecipient : Address;
  Random : Hash
}.

(** ** [Payload] *)

(** [empty] is the block [newPayload] was given; [full] and [fullFees] are
    [nil] until the first accepted update; [stop = true] when the channel is
    closed; [lock = true] when the mutex is held. *)
Record Payload := mkPayload {
  empty : Block;
  full : option Block;
  fullFees : option Z;
  stop : bool;
  lock : bool;
  cond : Cond
}.

Definition newPayload (empty : Block) : Payload :=
  {| empty := empty;
     full := None;
     fullFees := None;
     stop := false;
     lock := false;
     cond := {| waiting := []; notified := [] |} |}.

Definition set_full (b : option Block) (p : Payload) : Payload :=
  {| empty := empty p; full := b; fullFees := fullFees p;
     stop := stop p; lock := lock p; cond := cond p |}.

Definition set_fullFees (f : option Z) (p : Payload) : Payload :=
  {| empty := empty p; full := full p; fullFees := f;
     stop := stop p; lock := lock p; cond := cond p |}.

Definition set_stop (c : bool) (p : Payload) : Payload :=
  {| empty := empty p; full := full p; fullFees := fullFees p;
     stop := c; lock := lock p; cond := cond p |}.

Definition set_lock (l : bool) (p : Payload) : Payload :=
  {| empty := empty p; full := full p; fullFees := fullFees p;
     stop := stop p; lock := l; cond := cond p |}.

Definition set_cond (c : Cond) (p : Payload) : Payload :=
  {| empty := empty p; full := full p; fullFees := fullFees p;
     stop := stop p; lock := lock p; cond := c |}.

(** ** The monad of method bodies *)

Inductive result (A : Type) : Type :=
| Done (a : A) (p : Payload)   (* ran to its end *)
| Panic                        (* run-time panic *)
| Blocked.                     (* cannot proceed in this state *)
Arguments Done {A} a p.
Arguments Panic {A}.
Arguments Blocked {A}.

Definition M (A : Type) : Type := Payload -> result A.

Definition ret {A} (a : A) : M A := fun p => Done a p.

Definition bind {A B} (m : M A) (k : A -> M B) : M B :=
  fun p =>
    match m p with
    | Done a p' => k a p'
    | Panic => Panic
    | Blocked => Blocked
    end.

Notation "x <- m ;; k" := (bind m (fun x => k))
  (at level 100, m at next level, right associativity).
Notation "m ;;; k" := (bind m (fun _ => k))
  (at level 100, right associativity).

Definition gets {A} (f : Payload -> A) : M A := fun p => Done (f p) p.
Definition modify (f : Payload -> Payload) : M unit := fun p => Done tt (f p).
Definition panic {A} : M A := fun _ => Panic.

(** [defer d] around [body]: [d] runs when [body] returns. *)
Definition defer {A} (d : M unit) (body : M A) : M A :=
  a <- body ;; d ;;; ret a.

(** *** Primitives *)

(** [payload.lock.Lock()] *)
Definition mutex_Lock : M unit :=
  fun p => if lock p then Blocked else Done tt (set_lock true p).

(** [payload.lock.Unlock()]: unlocking an unlocked mutex is fatal. *)
Definition mutex_Unlock : M unit :=
  fun p => if lock p then Done tt (set_lock false p) else Panic.

(** [select { case <-payload.stop: (true) default: (false) }]: a receive on
    the channel, on which nothing is ever sent, is ready exactly when the
    channel is closed. *)
Definition stop_closed : M bool := gets stop.

(** [close(payload.stop)]: closing a closed channel panics. *)
Definition close_stop : M unit :=
  fun p => if stop p then Panic else Done tt (set_stop true p).

(** [payload.cond.Broadcast()]: every waiting goroutine is woken. *)
Definition Broadcast (c : Cond) : Cond :=
  {| waiting := []; notified := notified c ++ waiting c |}.

Definition cond_Broadcast : M unit :=
  modify (fun p => set_cond (Broadcast (cond p)) p).

(** [payload.cond.Wait()], first half: the caller joins the notify list,
    unlocks the mutex and is suspended. *)
Definition cond_Wait_suspend (g : tid) : M unit :=
  modify (fun p =>
    set_cond {| waiting := waiting (cond p) ++ [g];
                notified := notified (cond p) |} p) ;;;
  mutex_Unlock.

(** [payload.cond.Wait()], second half: once woken by a [Broadcast] the
    caller locks the mutex again and [Wait] returns. *)
Definition cond_Wait_resume (g : tid) : M unit :=
  fun p =>
    if bool_decide (g ∈ notified (cond p)) then
      (mutex_Lock ;;;
       modify (fun p =>
         set_cond {| waiting := waiting (cond p);
                     notified := filter (fun x => x <> g) (notified (cond p)) |} p)) p
    else Blocked.

(** [fees.Cmp(payload.fullFees)]: a [nil] argument is dereferenced. *)
Definition fees_Cmp (fees : Z) (y : option Z) : M Z :=
  match y with
  | Some y => ret (big_Cmp fees y)
  | None => panic
  end.

(** [beacon.BlockToExecutableData(b)] reads the header of [b]. *)
Definition call_BlockToExecutableData (b : option Block) : M ExecutableData :=
  match b with
  | Some b => ret (BlockToExecutableData b)
  | None => panic
  end.

(** *** Methods *)

(** [Payload.update]: [block] and [fees] are the values [getSealingBlock]
    returned together with a [nil] error. *)
Definition update (block : Block) (fees : Z) : M unit :=
  mutex_Lock ;;;
  defer mutex_Unlock (
    closed <- stop_closed ;;
    if closed : bool then ret tt (* reject stale update *)
    else
      f <- gets full ;;
      higher <- match f with
                | None => ret true
                | Some _ =>
                    y <- gets fullFees ;;
                    c <- fees_Cmp fees y ;;
                    ret (0 <? c)
                end ;;
      (if higher : bool then
         modify (set_full (Some block)) ;;;
         modify (set_fullFees (Some fees))
       else ret tt) ;;;
      cond_Broadcast).

(** [Payload.Resolve] *)
Definition Resolve : M ExecutableData :=
  mutex_Lock ;;;
  defer mutex_Unlock (
    closed <- stop_closed ;;
    (if closed : bool then ret tt else close_stop) ;;;
    f <- gets full ;;
    match f with
    | Some _ => call_BlockToExecutableData f
    | None =>
        e <- gets empty ;;
        call_BlockToExecutableData (Some e)
    end).

(** [Payload.ResolveEmpty] *)
Definition ResolveEmpty : M ExecutableData :=
  mutex_Lock ;;;
  defer mutex_Unlock (
    e <- gets empty ;;
    call_BlockToExecutableData (Some e)).

(** The last statement of [ResolveFull]. *)
Definition ResolveFull_tail : M (option ExecutableData) :=
  f <- gets full ;;
  v <- call_BlockToExecutableData f ;;
  ret (Some v).

(** What the first critical section of [ResolveFull] ends with: the method
    returned (a [nil] result is [None]), or the caller is suspended in
    [cond.Wait]. *)
Inductive rf :=
| Returned (r : option ExecutableData)
| Parked.

(** [Payload.ResolveFull] up to [payload.cond.Wait()]. *)
Definition ResolveFull_begin (g : tid) : M rf :=
  mutex_Lock ;;;
  f <- gets full ;;
  match f with
  | None =>
      closed <- stop_closed ;;
      if closed : bool then defer mutex_Unlock (ret (Returned None))
      else
        cond_Wait_suspend g ;;;
        ret Parked
  | Some _ =>
      defer mutex_Unlock (r <- ResolveFull_tail ;; ret (Returned r))
  end.

(** [Payload.ResolveFull] from the return of [payload.cond.Wait()]. *)
Definition ResolveFull_resume (g : tid) : M (option ExecutableData) :=
  cond_Wait_resume g ;;;
  defer mutex_Unlock ResolveFull_tail.

(** ** The external builder and [worker.buildPayload] *)

(** What [getSealingBlock] returns: a block and its fees with a [nil]
    error, or an error. *)
Inductive BuildResult :=
| BuildOk (block : Block) (fees : Z)
| BuildErr (err : error).

(** One invocation of [getSealingBlock] with its five arguments. *)
Record Call := mkCall {
  c_parent : Hash;
  c_timestamp : Z;
  c_coinbase : Address;
  c_random : Hash;
  c_noTxs : bool
}.

(** [worker.getSealingBlock] is not part of this file. It is a parameter:
    its result may depend on its arguments and on the invocations made so
    far. [recommit] is the worker's field of that name. *)
Context (getSealingBlock :
           list Call -> Hash -> Z -> Address -> Hash -> bool -> BuildResult).
Context (recommit : Duration).

(** A goroutine started by [buildPayload]: the payload it captured (its
    address in the heap) and the arguments it captured. *)
Record Goroutine := mkGoroutine { g_payload : nat; g_args : BuildPayloadArgs }.

(** What [buildPayload] acts on: the builder invocations made so far, the
    allocated payload objects and the goroutines started. *)
Record World := mkWorld {
  history : list Call;
  heap : list Payload;
  goroutines : list Goroutine
}.

Definition w_getSealingBlock (parent : Hash) (timestamp : Z)
    (coinbase : Address) (random : Hash) (noTxs : bool) (w : World)
  : BuildResult * World :=
  (getSealingBlock (history w) parent timestamp coinbase random noTxs,
   {| history := history w ++ [mkCall parent timestamp coinbase random noTxs];
      heap := heap w;
      goroutines := goroutines w |}).

(** [&Payload{...}]: the object is placed at a fresh address. *)
Definition alloc (p : Payload) (w : World) : nat * World :=
  (length (heap w),
   {| history := history w; heap := heap w ++ [p]; goroutines := goroutines w |}).

(** [go func() { ... }()] *)
Definition go (g : Goroutine) (w : World) : World :=
  {| history := history w; heap := heap w; goroutines := goroutines w ++ [g] |}.

(** [worker.buildPayload]: the pair of the returned [*Payload] and [error],
    and the world it leaves. *)
Definition buildPayload (args : BuildPayloadArgs) (w : World)
  : (option nat * option error) * World :=
  let '(r, w1) :=
    w_getSealingBlock (Parent args) (Timestamp args) (FeeRecipient args)
                      (Random args) true w in
  match r with
  | BuildErr err => ((None, Some err), w1)
  | BuildOk empty _ =>
      let '(payload, w2) := alloc (newPayload empty) w1 in
      let w3 := go {| g_payload := payload; g_args := args |} w2 in
      ((Some payload, None), w3)
  end.

(** ** One build request as a transition system *)

(** Where the goroutine of [buildPayload] stands: not yet running; at the
    [select]; inside [getSealingBlock], which will return [r]; returned. *)
Inductive Phase :=
| Spawned
| Scheduled
| Building (r : BuildResult)
| Stopped.

(** [born] is the instant at which the goroutine created its timers;
    [returned] maps a caller of [ResolveFull] to the value it got. *)
Record State := mkState {
  payload : Payload;
  phase : Phase;
  timer : Timer;
  endTimer : Timer;
  now : Z;
  born : Z;
  calls : list Call;
  returned : gmap tid (option ExecutableData)
}.

Definition set_payload (p : Payload) (s : State) : State :=
  mkState p (phase s) (timer s) (endTimer s) (now s) (born s) (calls s) (returned s).

Definition set_loop (ph : Phase) (t e : Timer) (s : State) : State :=
  mkState (payload s) ph t e (now s) (born s) (calls s) (returned s).

Definition set_now (t : Z) (s : State) : State :=
  mkState (payload s) (phase s) (timer s) (endTimer s) t (born s) (calls s) (returned s).

Definition set_born (t : Z) (s : State) : State :=
  mkState (payload s) (phase s) (timer s) (endTimer s) (now s) t (calls s) (returned s).

Definition add_call (c : Call) (s : State) : State :=
  mkState (payload s) (phase s) (timer s) (endTimer s) (now s) (born s)
          (calls s ++ [c]) (returned s).

Definition set_returned (g : tid) (r : option ExecutableData) (s : State) : State :=
  mkState (payload s) (phase s) (timer s) (endTimer s) (now s) (born s) (calls s)
          (<[g := r]> (returned s)).

(** The state right after [buildPayload] returned the payload built around
    [empty], at instant [t0], with [h] the builder invocations so far. *)
Definition init (empty : Block) (t0 : Z) (h : list Call) : State :=
  {| payload := newPayload empty;
     phase := Spawned;
     timer := noTimer;
     endTimer := noTimer;
     now := t0;
     born := t0;
     calls := h;
     returned := ∅ |}.

Inductive label :=
| LTick (d : Duration)          (* time passes *)
| LStart                        (* the goroutine creates its two timers *)
| LFireTimer                    (* the runtime delivers [timer] *)
| LFireEndTimer                 (* the runtime delivers [endTimer] *)
| LSelTimer                     (* [case <-timer.C]: the builder is called *)
| LBuildDone                    (* the builder returned *)
| LSelStop                      (* [case <-payload.stop] *)
| LSelEnd                       (* [case <-endTimer.C] *)
| LResolve (r : ExecutableData)
| LResolveEmpty (r : ExecutableData)
| LResolveFull (g : tid) (o : rf)
| LResume (g : tid) (r : option ExecutableData).

(** What the goroutine does with the builder's result: [update] when the
    error is [nil], nothing otherwise. *)
Definition apply_build (r : BuildResult) : M unit :=
  match r with
  | BuildOk block fees => update block fees
  | BuildErr _ => ret tt
  end.

Definition args_call (args : BuildPayloadArgs) (noTxs : bool) : Call :=
  mkCall (Parent args) (Timestamp args) (FeeRecipient args) (Random args) noTxs.

Definition record_result (g : tid) (o : rf) (s : State) : State :=
  match o with
  | Returned r => set_returned g r s
  | Parked => s
  end.

(** A method is one step when it runs to its end from the current payload;
    each case of the goroutine's [select] is enabled when its channel is
    ready, and any enabled case may be the one taken. The call of the
    builder ([LSelTimer] to [LBuildDone]) holds no lock, so every other
    step may fall in between. [LBuildDone] is the rest of the [timer.C]
    case: [payload.update] when the error is [nil], then [timer.Reset],
    which touches the goroutine's own timer only. A caller enters
    [ResolveFull] under an identifier that is not in use. *)
Inductive step (args : BuildPayloadArgs) : State -> label -> State -> Prop :=
| step_tick s d :
    0 < d ->
    step args s (LTick d) (set_now (now s + d) s)
| step_start s :
    phase s = Spawned ->
    step args s LStart
      (set_born (now s)
         (set_loop Scheduled (NewTimer (now s) 0)
                   (NewTimer (now s) (Second * 12)) s))
| step_fire_timer s :
    expired (now s) (timer s) ->
    step args s LFireTimer (set_loop (phase s) (fire (timer s)) (endTimer s) s)
| step_fire_endTimer s :
    expired (now s) (endTimer s) ->
    step args s LFireEndTimer (set_loop (phase s) (timer s) (fire (endTimer s)) s)
| step_sel_timer s :
    phase s = Scheduled ->
    C (timer s) = true ->
    step args s LSelTimer
      (add_call (args_call args false)
         (set_loop
            (Building (getSealingBlock (calls s) (Parent args) (Timestamp args)
                                       (FeeRecipient args) (Random args) false))
            (recv (timer s)) (endTimer s) s))
| step_build_done s r p' :
    phase s = Building r ->
    apply_build r (payload s) = Done tt p' ->
    step args s LBuildDone
      (set_loop Scheduled (Timer_Reset (now s) recommit (timer s)) (endTimer s)
         (set_payload p' s))
| step_sel_stop s :
    phase s = Scheduled ->
    stop (payload s) = true ->
    step args s LSelStop (set_loop Stopped (Timer_Stop (timer s)) (endTimer s) s)
| step_sel_end s :
    phase s = Scheduled ->
    C (endTimer s) = true ->
    step args s LSelEnd
      (set_loop Stopped (Timer_Stop (timer s)) (recv (endTimer s)) s)
| step_Resolve s r p' :
    Resolve (payload s) = Done r p' ->
    step args s (LResolve r) (set_payload p' s)
| step_ResolveEmpty s r p' :
    ResolveEmpty (payload s) = Done r p' ->
    step args s (LResolveEmpty r) (set_payload p' s)
| step_ResolveFull s g o p' :
    g ∉ waiting (cond (payload s)) ->
    g ∉ notified (cond (payload s)) ->
    returned s !! g = None ->
    ResolveFull_begin g (payload s) = Done o p' ->
    step args s (LResolveFull g o) (record_result g o (set_payload p' s))
| step_resume s g r p' :
    ResolveFull_resume g (payload s) = Done r p' ->
    step args s (LResume g r) (set_returned g r (set_payload p' s)).

(** Executions: the labels are listed in the order of the steps. *)
Inductive steps (args : BuildPayloadArgs) : State -> list label -> State -> Prop :=
| steps_nil s : steps args s [] s
| steps_cons s l s' ls s'' :
    step args s l s' -> steps args s' ls s'' -> steps args s (l :: ls) s''.

Definition reachable (args : BuildPayloadArgs) (s : State) : Prop :=
  exists empty t0 h ls, steps args (init empty t0 h) ls s.

(** *** The steps as a function *)

(** What a step is asked to do; what it returns is in its label. *)
Inductive command :=
| CTick (d : Duration)
| CStart
| CFireTimer
| CFireEndTimer
| CSelTimer
| CBuildDone
| CSelStop
| CSelEnd
| CResolve
| CResolveEmpty
| CResolveFull (g : tid)
| CResume (g : tid).

Definition expiredb (now : Z) (t : Timer) : bool :=
  match deadline t with
  | Some at_ => bool_decide (at_ <= now)
  | None => false
  end.

(** The step that [c] stands for, when it is enabled in [s]. *)
Definition exec (args : BuildPayloadArgs) (c : command) (s : State)
  : option (label * State) :=
  match c with
  | CTick d =>
      if bool_decide (0 < d) then Some (LTick d, set_now (now s + d) s) else None
  | CStart =>
      match phase s with
      | Spawned =>
          Some (LStart,
                set_born (now s)
                  (set_loop Scheduled (NewTimer (now s) 0)
                            (NewTimer (now s) (Second * 12)) s))
      | _ => None
      end
  | CFireTimer =>
      if expiredb (now s) (timer s)
      then Some (LFireTimer, set_loop (phase s) (fire (timer s)) (endTimer s) s)
      else None
  | CFireEndTimer =>
      if expiredb (now s) (endTimer s)
      then Some (LFireEndTimer, set_loop (phase s) (timer s) (fire (endTimer s)) s)
      else None
  | CSelTimer =>
      match phase s with
      | Scheduled =>
          if C (timer s) then
            Some (LSelTimer,
                  add_call (args_call args false)
                    (set_loop
                       (Building (getSealingBlock (calls s) (Parent args)
                                    (Timestamp args) (FeeRecipient args)
                                    (Random args) false))
                       (recv (timer s)) (endTimer s) s))
          else None
      | _ => None
      end
  | CBuildDone =>
      match phase s with
      | Building r =>
          match apply_build r (payload s) with
          | Done _ p' =>
              Some (LBuildDone,
                    set_loop Scheduled (Timer_Reset (now s) recommit (timer s))
                             (endTimer s) (set_payload p' s))
          | _ => None
          end
      | _ => None
      end
  | CSelStop =>
      match phase s with
      | Scheduled =>
          if stop (payload s)
          then Some (LSelStop,
                     set_loop Stopped (Timer_Stop (timer s)) (endTimer s) s)
          else None
      | _ => None
      end
  | CSelEnd =>
      match phase s with
      | Scheduled =>
          if C (endTimer s)
          then Some (LSelEnd,
                     set_loop Stopped (Timer_Stop (timer s)) (recv (endTimer s)) s)
          else None
      | _ => None
      end
  | CResolve =>
      match Resolve (payload s) with
      | Done r p' => Some (LResolve r, set_payload p' s)
      | _ => None
      end
  | CResolveEmpty =>
      match ResolveEmpty (payload s) with
      | Done r p' => Some (LResolveEmpty r, set_payload p' s)
      | _ => None
      end
  | CResolveFull g =>
      if bool_decide (g ∉ waiting (cond (payload s)))
         && bool_decide (g ∉ notified (cond (payload s)))
      then
        match returned s !! g with
        | None =>
            match ResolveFull_begin g (payload s) with
            | Done o p' =>
                Some (LResolveFull g o, record_result g o (set_payload p' s))
            | _ => None
            end
        | Some _ => None
        end
      else None
  | CResume g =>
      match ResolveFull_resume g (payload s) with
      | Done r p' => Some (LResume g r, set_returned g r (set_payload p' s))
      | _ => None
      end
  end.

(** A list of commands, run in order: the labels and the final state. *)
Fixpoint run (args : BuildPayloadArgs) (cs : list command) (s : State)
  : option (list label * State) :=
  match cs with
  | [] => Some ([], s)
  | c :: cs' =>
      match exec args c s with
      | Some (l, s') =>
          match run args cs' s' with
          | Some (ls, s'') => Some (l :: ls, s'')
          | None => None
          end
      | None => None
      end
  end.

(** ** Definitions that follow the wording of the specification *)

(** A sequence of [update] calls, applied in order. *)
Fixpoint updates (us : list (Block * Z)) (p : Payload) : result unit :=
  match us with
  | [] => Done tt p
  | (b, f) :: us' =>
      match update b f p with
      | Done _ p' => updates us' p'
      | Panic => Panic
      | Blocked => Blocked
      end
  end.

(** The maximum of two fees either of which may be absent, and the maximum
    of a list of fees, absent for the empty list. *)
Definition omax (a b : option Z) : option Z :=
  match a, b with
  | Some x, Some y => Some (Z.max x y)
  | Some x, None => Some x
  | None, _ => b
  end.

Fixpoint max_fees (fs : list Z) : option Z :=
  match fs with
  | [] => None
  | f :: fs' => omax (Some f) (max_fees fs')
  end.

(** The updates of a sequence that are accepted when [cur] is the fee
    stored before the sequence: the first one when nothing is stored, and
    then each one whose fee exceeds the fee accepted last. *)
Fixpoint accepted (cur : option Z) (us : list (Block * Z)) : list (Block * Z) :=
  match us with
  | [] => []
  | (b, f) :: us' =>
      match cur with
      | None => (b, f) :: accepted (Some f) us'
      | Some f0 =>
          if f0 <? f then (b, f) :: accepted (Some f) us' else accepted cur us'
      end
  end.

(** [Resolve] called [n] times in a row, with the values returned. *)
Fixpoint Resolve_times (n : nat) (p : Payload) : result (list ExecutableData) :=
  match n with
  | O => Done [] p
  | S n' =>
      match Resolve p with
      | Done r p' =>
          match Resolve_times n' p' with
          | Done rs p'' => Done (r :: rs) p''
          | Panic => Panic
          | Blocked => Blocked
          end
      | Panic => Panic
      | Blocked => Blocked
      end
  end.

(** ** Auxiliary definitions *)

(** The payload after an accepted update. *)
Definition accept (b : Block) (f : Z) (p : Payload) : Payload :=
  set_cond (Broadcast (cond p)) (set_fullFees (Some f) (set_full (Some b) p)).

(** The block [Resolve] converts. *)
Definition latest (p : Payload) : Block :=
  match full p with
  | Some b => b
  | None => empty p
  end.

(** [full] and [fullFees] are assigned together. *)
Definition paired (p : Payload) : Prop :=
  is_Some (full p) <-> is_Some (fullFees p).

(** What holds of the payload in every state of a build request: the mutex
    is free between critical sections; [full] and [fullFees] are paired;
    nobody waits once [full] is set; whoever has been woken finds [full]
    set; a caller inside [ResolveFull] has not returned yet. *)
Definition payload_inv (p : Payload) (rs : gmap tid (option ExecutableData)) : Prop :=
  lock p = false /\
  paired p /\
  (is_Some (full p) -> waiting (cond p) = []) /\
  (forall g, g ∈ notified (cond p) -> is_Some (full p)) /\
  (forall g, g ∈ waiting (cond p) \/ g ∈ notified (cond p) -> rs !! g = None).

(** What holds of the goroutine's timers: [endTimer] is armed for twelve
    seconds after [born] and is delivered no earlier; [timer] is either
    armed or delivered, and is neither while the builder runs. *)
Definition timers_inv (s : State) : Prop :=
  (forall t, deadline (endTimer s) = Some t -> t = born s + Second * 12) /\
  (C (endTimer s) = true -> born s + Second * 12 <= now s) /\
  (C (timer s) = true -> deadline (timer s) = None) /\
  (forall r, phase s = Building r -> timer s = noTimer).

Definition Inv (s : State) : Prop :=
  payload_inv (payload s) (returned s) /\ timers_inv s.

(** ** Definitions for properties of whole executions *)

(** How a payload may differ from an earlier one: the block it was built
    around is the same; a closed channel stays closed and freezes [full] and
    [fullFees]; [full] stays set; the fee does not get lower and the block
    is the same when the fee is. *)
Definition evolves (p p' : Payload) : Prop :=
  empty p' = empty p /\
  (stop p = true ->
     stop p' = true /\ full p' = full p /\ fullFees p' = fullFees p) /\
  (is_Some (full p) -> is_Some (full p')) /\
  (forall f0, fullFees p = Some f0 ->
     exists f1, fullFees p' = Some f1 /\ f0 <= f1 /\ (f1 = f0 -> full p' = full p)).

(** The number of times an execution takes the [timer.C] case. *)
Definition is_sel_timer (l : label) : bool :=
  match l with
  | LSelTimer => true
  | _ => false
  end.

Definition builds (ls : list label) : nat := length (filter is_sel_timer ls).

(** The goroutine is past a [timer.Reset] that armed [timer] for instant
    [T], and has not taken the [timer.C] case since. *)
Definition spaced (T : Z) (s : State) : Prop :=
  phase s <> Spawned /\
  (forall r, phase s <> Building r) /\
  (C (timer s) = true -> T <= now s) /\
  (forall t, deadline (timer s) = Some t -> t = T).

(** [block] with [fees] is what the builder returned, without an error, to
    an invocation recorded in [cs] that was made after the invocations [h0]
    (those that precede the goroutine), with the request's arguments and
    [noTxs = false]: [h] is the history that invocation saw. *)
Definition built (args : BuildPayloadArgs) (h0 cs : list Call)
    (block : Block) (fees : Z) : Prop :=
  exists h, h0 `prefix_of` h /\
    h ++ [args_call args false] `prefix_of` cs /\
    getSealingBlock h (Parent args) (Timestamp args) (FeeRecipient args)
                    (Random args) false = BuildOk block fees.

(** What is stored, and what is about to be stored, came from the builder
    after [h0]. *)
Definition provenance (args : BuildPayloadArgs) (h0 : list Call) (s : State) : Prop :=
  h0 `prefix_of` calls s /\
  (forall b, full (payload s) = Some b ->
     exists f, fullFees (payload s) = Some f /\ built args h0 (calls s) b f) /\
  (forall b f, phase s = Building (BuildOk b f) -> built args h0 (calls s) b f).

(** While the goroutine runs, [endTimer] is armed or already delivered. *)
Definition endTimer_live (s : State) : Prop :=
  phase s = Scheduled \/ (exists r, phase s = Building r) ->
  deadline (endTimer s) = Some (born s + Second * 12) \/ C (endTimer s) = true.

End PayloadBuilding.

Arguments Done {Block A} a p.
Arguments Panic {Block A}.
Arguments Blocked {Block A}.

(** * A concrete build request *)

(** Blocks and converted payloads are numbers and the conversion is the
    identity; the builder's [k]-th invocation succeeds with block [k] and
    fee [k]; [recommit] is two seconds. *)
Module Demo.

Definition BlockToExecutableData (b : nat) : nat := b.

Definition getSealingBlock (h : list (@Call unit unit)) (_ : unit) (_ : Z)
    (_ : unit) (_ : unit) (_ : bool) : @BuildResult nat unit :=
  BuildOk (length h) (Z.of_nat (length h)).

(** A builder that always fails. *)
Definition failing (h : list (@Call unit unit)) (_ : unit) (_ : Z)
    (_ : unit) (_ : unit) (_ : bool) : @BuildResult nat unit :=
  BuildErr tt.

Definition recommit : Duration := 2 * Second.

Definition args : @BuildPayloadArgs unit unit := mkArgs tt 0 tt tt.

(** A world in which nothing has happened yet. *)
Definition w0 : @World nat unit unit := mkWorld [] [] [].

(** The request right after [buildPayload] built the payload around block
    0 at instant 0; the baseline call is the builder's only invocation. *)
Definition s0 : @State nat nat unit unit unit :=
  init 0%nat 0 [args_call args true].

(** The state in which the commands [cs] leave the request. *)
Definition after
    (builder : list (@Call unit unit) -> unit -> Z -> unit -> unit -> bool ->
               @BuildResult nat unit)
    (cs : list command) : @State nat nat unit unit unit :=
  match run BlockToExecutableData builder recommit args cs s0 with
  | Some (_, s) => s
  | None => s0
  end.

(** Caller 7 enters [ResolveFull] and waits; then [Resolve] is called. *)
Definition hang : list command := [CResolveFull 7%nat; CResolve].
Definition s_hung := after getSealingBlock hang.

(** The goroutine builds once: block 1 with fee 1 is stored. *)
Definition build_once : list command :=
  [CStart; CFireTimer; CSelTimer; CBuildDone].
Definition s_built := after getSealingBlock build_once.

(** Caller 7 waits and is woken by the first build. *)
Definition wake : list command := CResolveFull 7%nat :: build_once.
Definition s_woken := after getSealingBlock wake.


(** Twelve seconds pass and the goroutine returns through [endTimer]. *)
Definition expire : list command :=
  [CStart; CTick (12 * Second); CFireEndTimer; CSelEnd].
Definition s_expired := after getSealingBlock expire.

(** A payload holding block 4 with fee 10, and the payload of a request
    on which [Resolve] was called before any build. *)
Definition p_best : @Payload nat :=
  set_fullFees (Some 10) (set_full (Some 4%nat) (newPayload 0%nat)).
Definition p_cancelled : @Payload nat := set_stop true (newPayload 0%nat).

(** The goroutine inside its first call of the builder. *)
Definition s_building := after getSealingBlock [CStart; CFireTimer; CSelTimer].

(** After the first build two seconds pass and [timer] is delivered; the
    goroutine then takes the [timer.C] case again. *)
Definition rearm : list command := build_once ++ [CTick (2 * Second); CFireTimer].
Definition s_rearmed := after getSealingBlock rearm.
Definition s_second := after getSealingBlock (rearm ++ [CSelTimer]).

(** Twelve seconds after the first build the goroutine is at its [select]. *)
Definition s_late := after getSealingBlock (build_once ++ [CTick (12 * Second)]).



(** Caller 7 waits and the goroutine is inside its first call of the
    builder; after the wake-up a second build stores block 2. *)
Definition s_waiting_building :=
  after getSealingBlock [CResolveFull 7%nat; CStart; CFireTimer; CSelTimer].
Definition s_woken_second :=
  after getSealingBlock
    (wake ++ [CTick (2 * Second); CFireTimer; CSelTimer; CBuildDone]).

End Demo.

(** * Properties *)

Section Properties.

Context {Block ExecutableData Hash Address error : Type}.
Context (BlockToExecutableData : Block -> ExecutableData).
Context (getSealingBlock :
           list (@Call Hash Address) -> Hash -> Z -> Address -> Hash -> bool ->
           @BuildResult Block error).
Context (recommit : Duration).

Local Abbreviation Payload := (@Payload Block).
Local Abbreviation State := (@State Block ExecutableData Hash Address error).
Local Abbreviation BuildPayloadArgs := (@BuildPayloadArgs Hash Address).
Local Abbreviation label := (@label ExecutableData).
Local Abbreviation init := (@init Block ExecutableData Hash Address error).
Local Abbreviation Resolve := (Resolve BlockToExecutableData).
Local Abbreviation ResolveEmpty := (ResolveEmpty BlockToExecutableData).
Local Abbreviation ResolveFull_tail := (ResolveFull_tail BlockToExecutableData).
Local Abbreviation ResolveFull_begin := (ResolveFull_begin BlockToExecutableData).
Local Abbreviation ResolveFull_resume := (ResolveFull_resume BlockToExecutableData).
Local Abbreviation Resolve_times := (Resolve_times BlockToExecutableData).
Local Abbreviation buildPayload := (buildPayload getSealingBlock).
Local Abbreviation step := (step BlockToExecutableData getSealingBlock recommit).
Local Abbreviation steps := (steps BlockToExecutableData getSealingBlock recommit).
Local Abbreviation reachable :=
  (reachable BlockToExecutableData getSealingBlock recommit).
Local Abbreviation exec := (exec BlockToExecutableData getSealingBlock recommit).
Local Abbreviation run := (run BlockToExecutableData getSealingBlock recommit).

Implicit Types (p q : Payload) (s : State) (b e : Block).
Implicit Types (us : list (Block * Z)) (args : BuildPayloadArgs).
Implicit Types (l : label) (ls : list label) (g : tid).
Implicit Types (rs : gmap tid (option ExecutableData)).
Implicit Types (w : @World Block Hash Address).

(** ** The methods, one path at a time *)

Ltac eval_method :=
  unfold update, Resolve, ResolveEmpty, ResolveFull_begin, ResolveFull_resume,
    ResolveFull_tail, apply_build, defer, bind, ret, gets, modify, panic,
    mutex_Lock, mutex_Unlock, stop_closed, close_stop, cond_Broadcast,
    cond_Wait_suspend, cond_Wait_resume, fees_Cmp, call_BlockToExecutableData;
  simpl.

Ltac open_payload p :=
  destruct p as [? ? ? ? ? [? ?]]; simpl in *; simplify_eq.

Lemma big_Cmp_pos x y : (0 <? big_Cmp x y) = true <-> y < x.
Proof.
  unfold big_Cmp. destruct (Z.compare_spec x y); simpl; split; intros; lia.
Qed.

Lemma big_Cmp_nonpos x y : (0 <? big_Cmp x y) = false <-> x <= y.
Proof.
  unfold big_Cmp. destruct (Z.compare_spec x y); simpl; split; intros; lia.
Qed.

Lemma update_stale p b f :
  lock p = false -> stop p = true -> update b f p = Done tt p.
Proof. intros. open_payload p. by eval_method. Qed.

Lemma update_first p b f :
  lock p = false -> stop p = false -> full p = None ->
  update b f p = Done tt (accept b f p).
Proof. intros. open_payload p. by eval_method. Qed.

Lemma update_higher p b f f0 :
  lock p = false -> stop p = false -> is_Some (full p) ->
  fullFees p = Some f0 -> f0 < f ->
  update b f p = Done tt (accept b f p).
Proof.
  intros ?? [b0 ?] ? Hlt. open_payload p. eval_method.
  apply big_Cmp_pos in Hlt. by rewrite Hlt.
Qed.

Lemma update_rejected p b f f0 :
  lock p = false -> stop p = false -> is_Some (full p) ->
  fullFees p = Some f0 -> f <= f0 ->
  update b f p = Done tt (set_cond (Broadcast (cond p)) p).
Proof.
  intros ?? [b0 ?] ? Hle. open_payload p. eval_method.
  apply big_Cmp_nonpos in Hle. by rewrite Hle.
Qed.

Lemma update_locked p b f : lock p = true -> update b f p = Blocked.
Proof. intros. open_payload p. by eval_method. Qed.

Lemma Resolve_unlocked p :
  lock p = false ->
  Resolve p = Done (BlockToExecutableData (latest p)) (set_stop true p).
Proof.
  intros. unfold latest. open_payload p. eval_method.
  by destruct stop0, full0.
Qed.

Lemma ResolveEmpty_unlocked p :
  lock p = false ->
  ResolveEmpty p = Done (BlockToExecutableData (empty p)) p.
Proof. intros. open_payload p. by eval_method. Qed.

Lemma ResolveFull_begin_full p g b :
  lock p = false -> full p = Some b ->
  ResolveFull_begin g p = Done (Returned (Some (BlockToExecutableData b))) p.
Proof. intros. open_payload p. by eval_method. Qed.

Lemma ResolveFull_begin_stopped p g :
  lock p = false -> full p = None -> stop p = true ->
  ResolveFull_begin g p = Done (Returned None) p.
Proof. intros. open_payload p. by eval_method. Qed.

Lemma ResolveFull_begin_wait p g :
  lock p = false -> full p = None -> stop p = false ->
  ResolveFull_begin g p =
    Done Parked (set_cond {| waiting := waiting (cond p) ++ [g];
                             notified := notified (cond p) |} p).
Proof. intros. open_payload p. by eval_method. Qed.

Lemma ResolveFull_resume_full p g b :
  lock p = false -> g ∈ notified (cond p) -> full p = Some b ->
  ResolveFull_resume g p =
    Done (Some (BlockToExecutableData b))
         (set_cond {| waiting := waiting (cond p);
                      notified := filter (fun x => x <> g) (notified (cond p)) |} p).
Proof.
  intros ? Hin ?. open_payload p. eval_method.
  by rewrite bool_decide_eq_true_2.
Qed.

Lemma ResolveFull_resume_nil p g :
  lock p = false -> g ∈ notified (cond p) -> full p = None ->
  ResolveFull_resume g p = Panic.
Proof.
  intros ? Hin ?. open_payload p. eval_method.
  by rewrite bool_decide_eq_true_2.
Qed.

Lemma ResolveFull_resume_not_notified p g :
  g ∉ notified (cond p) -> ResolveFull_resume g p = Blocked.
Proof.
  intros Hin. open_payload p. eval_method.
  by rewrite bool_decide_eq_false_2.
Qed.

(** ** Sequences of updates *)

Lemma paired_accept b f p : paired (accept b f p).
Proof. unfold paired. simpl. split; eauto. Qed.

Lemma paired_fees p : paired p -> is_Some (full p) -> is_Some (fullFees p).
Proof. intros Hp. apply Hp. Qed.

Lemma paired_nil p : paired p -> full p = None -> fullFees p = None.
Proof.
  intros Hp Hf. destruct (fullFees p) eqn:E; [|done].
  assert (is_Some (full p)) as [? ?] by (apply Hp; eauto). congruence.
Qed.

(** What one update does to an unlocked payload, path by path. *)
Lemma update_cases p b f :
  lock p = false -> paired p ->
  (stop p = true /\ update b f p = Done tt p) \/
  (stop p = false /\ full p = None /\ update b f p = Done tt (accept b f p)) \/
  (exists f0, stop p = false /\ is_Some (full p) /\ fullFees p = Some f0 /\
     f0 < f /\ update b f p = Done tt (accept b f p)) \/
  (exists f0, stop p = false /\ is_Some (full p) /\ fullFees p = Some f0 /\
     f <= f0 /\ update b f p = Done tt (set_cond (Broadcast (cond p)) p)).
Proof.
  intros Hl Hp.
  destruct (stop p) eqn:Hs; [left; eauto using update_stale|right].
  destruct (full p) as [b0|] eqn:Hf; [right|left; eauto using update_first].
  assert (is_Some (full p)) as Hsome by (rewrite Hf; eauto).
  destruct (paired_fees p Hp Hsome) as [f0 Hf0]. rewrite <- Hf.
  destruct (Z_lt_le_dec f0 f); [left|right]; exists f0.
  - split_and!; eauto. apply update_higher with f0; eauto.
  - split_and!; eauto. apply update_rejected with f0; eauto.
Qed.

Lemma updates_app us1 us2 p q :
  updates us1 p = Done tt q -> updates (us1 ++ us2) p = updates us2 q.
Proof.
  revert p. induction us1 as [|[b f] us1 IH]; intros p; simpl.
  - by intros [= ->].
  - destruct (update b f p) as [[] p'| |]; [apply IH|done|done].
Qed.

(** A run of updates ends, keeps the mutex free and the channel as it was,
    and never lowers the stored fee; when the stored fee is the same at the
    end, so is the stored block. *)
Lemma updates_monotone us p :
  lock p = false -> paired p ->
  exists q, updates us p = Done tt q /\ lock q = false /\ paired q /\
    stop q = stop p /\ empty q = empty p /\
    (is_Some (full p) -> is_Some (full q)) /\
    (forall f0, fullFees p = Some f0 ->
       exists f1, fullFees q = Some f1 /\ f0 <= f1 /\ (f1 = f0 -> full q = full p)).
Proof.
  revert p. induction us as [|[b f] us IH]; intros p Hl Hp; simpl.
  - exists p. split_and!; try done.
    intros f0 ?; exists f0; split_and!; [done|lia|done].
  - destruct (update_cases p b f Hl Hp)
      as [(Hs & ->)|[(Hs & Hf & ->)|[(f0 & Hs & Hf & Hf0 & Hlt & ->)|(f0 & Hs & Hf & Hf0 & Hle & ->)]]].
    + apply IH; done.
    + destruct (IH (accept b f p)) as (q & -> & ? & ? & ? & ? & Hfull & Hmono);
        [done|apply paired_accept|].
      exists q. split_and!; try done.
      * intros _. apply Hfull. simpl. eauto.
      * intros f0 Hf0. apply paired_nil in Hf; [congruence|done].
    + destruct (IH (accept b f p)) as (q & -> & ? & ? & ? & ? & Hfull & Hmono);
        [done|apply paired_accept|].
      exists q. split_and!; try done.
      * intros _. apply Hfull. simpl. eauto.
      * intros f0' Hf0'. assert (f0' = f0) as -> by congruence.
        destruct (Hmono f) as (f1 & ? & ? & _); [done|].
        exists f1. split_and!; [done|lia|lia].
    + destruct (IH (set_cond (Broadcast (cond p)) p)) as (q & -> & ? & ? & ? & ? & Hfull & Hmono);
        [done|done|].
      exists q. split_and!; done.
Qed.

(** C2, as amended. On a payload whose [stop] channel is open, [update]
    stores the candidate exactly when nothing is stored or the fee is
    strictly higher than the stored one, and otherwise (a lower or an equal
    fee) leaves block and fee as they are; on a payload whose channel is
    closed it changes nothing. Over any run of updates the stored fee never
    decreases and a stored block is only ever replaced together with a
    strictly higher fee. *)
Theorem update_accepts_only_strictly_higher p us b f :
  lock p = false -> paired p ->
  exists q q',
    updates us p = Done tt q /\ update b f q = Done tt q' /\
    (stop q = false ->
       (full q = None \/ exists f0, fullFees q = Some f0 /\ f0 < f) ->
       full q' = Some b /\ fullFees q' = Some f) /\
    (stop q = false ->
       (exists f0, fullFees q = Some f0 /\ f <= f0) ->
       full q' = full q /\ fullFees q' = fullFees q) /\
    (stop q = true -> q' = q) /\
    (forall f0, fullFees p = Some f0 ->
       exists f1, fullFees q' = Some f1 /\ f0 <= f1 /\
                  (f1 = f0 -> full q' = full p)).
Proof.
  intros Hl Hp.
  destruct (updates_monotone us p Hl Hp) as (q & Hq & Hlq & Hpq & _ & _ & _ & _).
  destruct (updates_monotone (us ++ [(b, f)]) p Hl Hp)
    as (q' & Hq' & _ & _ & _ & _ & _ & Hm).
  rewrite (updates_app _ _ _ _ Hq) in Hq'. simpl in Hq'.
  destruct (update b f q) as [[] q1| |] eqn:Hu; [|done|done].
  assert (q1 = q') as -> by congruence. clear Hq'.
  exists q, q'. split_and!; [done|done| | | |done].
  - intros Hs Hc.
    destruct (update_cases q b f Hlq Hpq)
      as [(Hs' & Hu')|[(_ & Hf & Hu')|[(f0 & _ & Hf & Hf0 & Hlt & Hu')
                                     |(f0 & _ & Hf & Hf0 & Hle & Hu')]]].
    + congruence.
    + rewrite Hu in Hu'. by injection Hu' as ->.
    + rewrite Hu in Hu'. by injection Hu' as ->.
    + destruct Hc as [Hn|(f0' & Hf0' & Hlt)].
      * rewrite Hn in Hf. by destruct Hf.
      * rewrite Hf0 in Hf0'. injection Hf0' as <-. lia.
  - intros Hs (f0' & Hf0' & Hle').
    destruct (update_cases q b f Hlq Hpq)
      as [(Hs' & Hu')|[(_ & Hf & Hu')|[(f0 & _ & Hf & Hf0 & Hlt & Hu')
                                     |(f0 & _ & Hf & Hf0 & Hle & Hu')]]].
    + congruence.
    + apply paired_nil in Hf; [congruence|done].
    + rewrite Hf0 in Hf0'. injection Hf0' as <-. lia.
    + rewrite Hu in Hu'. by injection Hu' as ->.
  - intros Hs. rewrite update_stale in Hu by done. congruence.
Qed.

(** *** Maximal fee *)

Lemma omax_accepted cur us :
  omax cur (max_fees (accepted cur us).*2) = omax cur (max_fees us.*2).
Proof.
  revert cur. induction us as [|[b f] us IH]; intros cur; [done|].
  destruct cur as [f0|].
  - change (omax (Some f0)
              (max_fees (if f0 <? f then (b, f) :: accepted (Some f) us
                         else accepted (Some f0) us).*2)
            = omax (Some f0) (omax (Some f) (max_fees us.*2))).
    destruct (Z.ltb_spec f0 f).
    + change (omax (Some f0) (omax (Some f) (max_fees (accepted (Some f) us).*2))
              = omax (Some f0) (omax (Some f) (max_fees us.*2))).
      by rewrite IH.
    + rewrite IH. destruct (max_fees us.*2); simpl; f_equal; lia.
  - apply (IH (Some f)).
Qed.

Lemma updates_max us p :
  lock p = false -> paired p -> stop p = false ->
  exists q, updates us p = Done tt q /\
    fullFees q = omax (fullFees p) (max_fees us.*2) /\
    ((full q = full p /\ fullFees q = fullFees p) \/
     exists b m, full q = Some b /\ fullFees q = Some m /\ (b, m) ∈ us).
Proof.
  revert p. induction us as [|[b f] us IH]; intros p Hl Hp Hs; simpl.
  - exists p. split_and!; [done|by destruct (fullFees p)|eauto].
  - destruct (update_cases p b f Hl Hp)
      as [(? & ->)|[(_ & Hf & ->)|[(f0 & _ & Hf & Hf0 & Hlt & ->)|(f0 & _ & Hf & Hf0 & Hle & ->)]]];
      [congruence| | |].
    + destruct (IH (accept b f p)) as (q & -> & Hfee & Hblk);
        [done|apply paired_accept|done|].
      exists q. split_and!; [done| |].
      * rewrite Hfee. simpl. by rewrite (paired_nil p Hp Hf).
      * right. destruct Hblk as [[Hb Hm]|(b' & m & ? & ? & ?)].
        -- exists b, f. simpl in *. split_and!; [done|done|left].
        -- exists b', m. split_and!; [done|done|by right].
    + destruct (IH (accept b f p)) as (q & -> & Hfee & Hblk);
        [done|apply paired_accept|done|].
      exists q. split_and!; [done| |].
      * rewrite Hfee, Hf0.
        change (omax (Some f) (max_fees us.*2)
                = omax (Some f0) (omax (Some f) (max_fees us.*2))).
        destruct (max_fees us.*2); simpl; f_equal; lia.
      * right. destruct Hblk as [[Hb Hm]|(b' & m & ? & ? & ?)].
        -- exists b, f. simpl in *. split_and!; [done|done|left].
        -- exists b', m. split_and!; [done|done|by right].
    + destruct (IH (set_cond (Broadcast (cond p)) p)) as (q & -> & Hfee & Hblk);
        [done|done|done|].
      exists q. split_and!; [done| |].
      * rewrite Hfee. simpl fullFees. rewrite Hf0.
        change (omax (Some f0) (max_fees us.*2)
                = omax (Some f0) (omax (Some f) (max_fees us.*2))).
        destruct (max_fees us.*2); simpl; f_equal; lia.
      * destruct Hblk as [[Hb Hm]|(b' & m & ? & ? & ?)]; [by left|right].
        exists b', m. split_and!; [done|done|by right].
Qed.

(** C3. After any sequence of updates applied to a fresh payload, [Resolve]
    returns the conversion of [full] when it is set and of [empty]
    otherwise; the fee stored with [full] is the maximum of the fees of the
    sequence, which is also the maximum over the accepted updates, and the
    block returned is a candidate of the sequence that carries this fee. *)
Theorem Resolve_returns_highest_fee e us :
  exists q,
    updates us (newPayload e) = Done tt q /\
    Resolve q = Done (BlockToExecutableData (latest q)) (set_stop true q) /\
    latest q = match full q with Some b => b | None => e end /\
    fullFees q = max_fees us.*2 /\
    fullFees q = max_fees (accepted None us).*2 /\
    (us = [] -> full q = None) /\
    (us <> [] -> exists b m, full q = Some b /\ fullFees q = Some m /\ (b, m) ∈ us).
Proof.
  assert (paired (newPayload e)) as Hp0.
  { unfold paired. simpl. split; intros [? ?]; done. }
  destruct (updates_max us (newPayload e)) as (q & Hq & Hfee & Hblk); [done..|].
  destruct (updates_monotone us (newPayload e)) as (q' & Hq' & Hl & Hp & Hs & He & _);
    [done..|].
  assert (q' = q) as -> by congruence.
  exists q. simpl in *. split_and!; try done.
  - by apply Resolve_unlocked.
  - unfold latest. by rewrite He.
  - rewrite Hfee. pose proof (omax_accepted None us) as Ha. simpl in Ha. by rewrite Ha.
  - intros ->. simpl in Hq. by injection Hq as <-.
  - intros Hne. destruct Hblk as [[Hb Hm]|?]; [|done].
    destruct us as [|[b f] us]; [done|].
    change (fullFees q = omax (Some f) (max_fees us.*2)) in Hfee.
    rewrite Hm in Hfee. simpl in Hfee. by destruct (max_fees us.*2).
Qed.

(** ** After cancellation *)

Lemma updates_stale us p :
  lock p = false -> stop p = true -> updates us p = Done tt p.
Proof.
  intros Hl Hs. induction us as [|[b f] us IH]; simpl; [done|].
  by rewrite update_stale.
Qed.

Lemma Resolve_Done_inv p r p1 :
  Resolve p = Done r p1 ->
  lock p = false /\ r = BlockToExecutableData (latest p) /\ p1 = set_stop true p.
Proof.
  intros H. destruct (lock p) eqn:Hl.
  - exfalso. destruct p as [? ? ? ? ? [? ?]]; simpl in *; subst. discriminate H.
  - rewrite Resolve_unlocked in H by done. by injection H as <- <-.
Qed.

(** C4. Once [Resolve] has been called, every later [update] returns and
    leaves the payload exactly as it was (block, fee, channel, waiters), so
    a later [Resolve] returns what the first one returned. *)
Theorem update_after_Resolve_is_noop p r p1 us :
  Resolve p = Done r p1 ->
  stop p1 = true /\
  updates us p1 = Done tt p1 /\
  (forall b f, update b f p1 = Done tt p1) /\
  Resolve p1 = Done r p1.
Proof.
  intros (Hl & -> & ->)%Resolve_Done_inv.
  split_and!; [done| | |].
  - by apply updates_stale.
  - intros. by apply update_stale.
  - rewrite Resolve_unlocked by done. unfold latest. by open_payload p.
Qed.

(** ** [buildPayload] *)

(** C6. [buildPayload] calls the builder once, with [noTxs = true], before
    anything else. When the builder fails, the error is returned with a
    [nil] payload, and neither a payload nor a goroutine has been created;
    when it succeeds, a payload around the block is allocated, one goroutine
    bound to it is started, and the payload is returned without any further
    call of the builder. *)
Theorem buildPayload_baseline_first args w :
  let w' := (buildPayload args w).2 in
  history w' = history w ++ [args_call args true] /\
  match getSealingBlock (history w) (Parent args) (Timestamp args)
                        (FeeRecipient args) (Random args) true with
  | BuildErr err =>
      (buildPayload args w).1 = (None, Some err) /\
      heap w' = heap w /\
      goroutines w' = goroutines w
  | BuildOk empty _ =>
      (buildPayload args w).1 = (Some (length (heap w)), None) /\
      heap w' = heap w ++ [newPayload empty] /\
      heap w' !! length (heap w) = Some (newPayload empty) /\
      goroutines w' = goroutines w ++ [mkGoroutine (length (heap w)) args]
  end.
Proof.
  unfold buildPayload, w_getSealingBlock, alloc, go, args_call. simpl.
  destruct (getSealingBlock _ _ _ _ _ _) as [b f|err]; simpl; split_and!; try done.
  by rewrite lookup_app_r, Nat.sub_diag.
Qed.

(** ** Invariants of a build request *)

Lemma ResolveFull_begin_cases p g :
  lock p = false ->
  (exists b, full p = Some b /\
     ResolveFull_begin g p = Done (Returned (Some (BlockToExecutableData b))) p) \/
  (full p = None /\ stop p = true /\
     ResolveFull_begin g p = Done (Returned None) p) \/
  (full p = None /\ stop p = false /\
     ResolveFull_begin g p =
       Done Parked (set_cond {| waiting := waiting (cond p) ++ [g];
                                notified := notified (cond p) |} p)).
Proof.
  intros Hl. destruct (full p) as [b|] eqn:Hf.
  - left. eauto using ResolveFull_begin_full.
  - right. destruct (stop p) eqn:Hs; [left|right];
      eauto using ResolveFull_begin_stopped, ResolveFull_begin_wait.
Qed.

Lemma ResolveFull_resume_cases p g :
  lock p = false ->
  ((g ∉ notified (cond p)) /\ ResolveFull_resume g p = Blocked) \/
  (g ∈ notified (cond p) /\ full p = None /\ ResolveFull_resume g p = Panic) \/
  (exists b, g ∈ notified (cond p) /\ full p = Some b /\
     ResolveFull_resume g p =
       Done (Some (BlockToExecutableData b))
            (set_cond {| waiting := waiting (cond p);
                         notified := filter (fun x => x <> g) (notified (cond p)) |} p)).
Proof.
  intros Hl. destruct (decide (g ∈ notified (cond p))) as [Hin|Hin].
  - right. destruct (full p) as [b|] eqn:Hf; [right|left].
    + exists b. eauto using ResolveFull_resume_full.
    + eauto using ResolveFull_resume_nil.
  - left. eauto using ResolveFull_resume_not_notified.
Qed.

Lemma payload_inv_update p rs b f p' :
  payload_inv p rs -> update b f p = Done tt p' -> payload_inv p' rs.
Proof.
  intros (Hl & Hp & Hw & Hn & Hr) Hu.
  destruct (update_cases p b f Hl Hp)
    as [(Hs & Hu')|[(_ & Hf & Hu')|[(f0 & _ & Hf & Hf0 & Hlt & Hu')
                                   |(f0 & _ & Hf & Hf0 & Hle & Hu')]]];
    rewrite Hu in Hu'; injection Hu' as ->.
  - done.
  - split_and!; [done|apply paired_accept|done|simpl; eauto|].
    simpl. intros g [Hg|Hg]; [by apply elem_of_nil in Hg|].
    apply Hr. apply elem_of_app in Hg. tauto.
  - split_and!; [done|apply paired_accept|done|simpl; eauto|].
    simpl. intros g [Hg|Hg]; [by apply elem_of_nil in Hg|].
    apply Hr. apply elem_of_app in Hg. tauto.
  - split_and!; [done|done|done|simpl; eauto|].
    simpl. intros g [Hg|Hg]; [by apply elem_of_nil in Hg|].
    apply Hr. apply elem_of_app in Hg. tauto.
Qed.

Lemma payload_inv_apply_build p rs (r : @BuildResult Block error) p' :
  payload_inv p rs -> apply_build r p = Done tt p' -> payload_inv p' rs.
Proof.
  destruct r as [b f|err]; simpl.
  - apply payload_inv_update.
  - unfold ret. by intros ? [= <-].
Qed.

Lemma Inv_init e t0 h : Inv (init e t0 h).
Proof.
  split; [split_and!; simpl|split_and!; simpl; done].
  - done.
  - unfold paired. simpl. split; intros [? ?]; done.
  - done.
  - intros g Hg. by apply elem_of_nil in Hg.
  - intros g [Hg|Hg]; by apply elem_of_nil in Hg.
Qed.

Lemma Inv_step args s l s' : step args s l s' -> Inv s -> Inv s'.
Proof.
  intros Hstep [HP HT]. pose proof HP as (Hl & Hp & Hw & Hn & Hr).
  destruct HT as (Hd & Hc & Ht & Hb).
  destruct Hstep as [s d Hd0|s Hph|s Hex|s Hex|s Hph Hc0|s r p' Hph Hu|s Hph Hs
                    |s Hph Hc0|s r p' HR|s r p' HR|s g o p' Hg1 Hg2 Hg3 HR|s g r p' HR].
  - (* time passes *)
    split; [done|]. split_and!; simpl; try done.
    intros HC. specialize (Hc HC). lia.
  - (* the goroutine starts *)
    split; [done|]. split_and!; simpl; try done; congruence.
  - (* timer delivered *)
    split; [done|]. split_and!; simpl; try done.
    intros r Hr'. destruct Hex as (t & Hdt & _). by rewrite (Hb r Hr') in Hdt.
  - (* endTimer delivered *)
    split; [done|]. split_and!; simpl; try done.
    intros _. destruct Hex as (t & Hdt & Hle). by rewrite (Hd t Hdt) in Hle.
  - (* case <-timer.C *)
    split; [done|]. split_and!; simpl; try done.
    intros r _. unfold recv, noTimer. by rewrite (Ht Hc0).
  - (* the builder returned *)
    split; [by eapply payload_inv_apply_build|].
    split_and!; simpl; try done.
    by rewrite (Hb r Hph).
  - (* case <-payload.stop *)
    split; [done|]. split_and!; simpl; done.
  - (* case <-endTimer.C *)
    split; [done|]. split_and!; simpl; done.
  - apply Resolve_Done_inv in HR as (_ & _ & ->). split; [|done].
    split_and!; simpl; done.
  - rewrite ResolveEmpty_unlocked in HR by done. injection HR as _ <-. done.
  - destruct (ResolveFull_begin_cases (payload s) g Hl)
      as [(b & Hf & HR')|[(Hf & Hs & HR')|(Hf & Hs & HR')]];
      rewrite HR in HR'; injection HR' as -> ->; (split; [|done]).
    + split_and!; simpl; try done.
      intros g' Hg'. rewrite lookup_insert_ne; [by apply Hr|].
      intros ->. tauto.
    + split_and!; simpl; try done.
      intros g' Hg'. rewrite lookup_insert_ne; [by apply Hr|].
      intros ->. tauto.
    + split_and!; simpl; try done.
      * rewrite Hf. by intros [? ?].
      * intros g' [Hg'|Hg']; [|by apply Hr; right].
        apply elem_of_app in Hg' as [Hg'|Hg']; [by apply Hr; left|].
        apply list_elem_of_singleton in Hg' as ->. done.
  - destruct (ResolveFull_resume_cases (payload s) g Hl)
      as [(Hin & HR')|[(Hin & Hf & HR')|(b & Hin & Hf & HR')]];
      rewrite HR in HR'; try done. injection HR' as -> ->. split; [|done].
    split_and!; simpl; try done.
    intros g' [Hg'|Hg'].
    + rewrite Hw in Hg' by (rewrite Hf; eauto). by apply elem_of_nil in Hg'.
    + apply list_elem_of_filter in Hg' as [Hne Hg'].
      rewrite lookup_insert_ne by done. apply Hr. by right.
Qed.

Lemma Inv_steps args s ls s' : steps args s ls s' -> Inv s -> Inv s'.
Proof. induction 1; eauto using Inv_step. Qed.

Lemma reachable_Inv args s : reachable args s -> Inv s.
Proof. intros (e & t0 & h & ls & Hs). eapply Inv_steps; eauto using Inv_init. Qed.

Lemma steps_snoc args s ls s' l s'' :
  steps args s ls s' -> step args s' l s'' -> steps args s (ls ++ [l]) s''.
Proof.
  induction 1; simpl; intros; econstructor; eauto using steps_nil.
Qed.

Lemma reachable_step args s l s' :
  reachable args s -> step args s l s' -> reachable args s'.
Proof.
  intros (e & t0 & h & ls & Hs) Hstep. exists e, t0, h, (ls ++ [l]).
  by eapply steps_snoc.
Qed.

(** ** The waiters of [ResolveFull] *)

(** A caller that waits while the channel is closed is neither woken nor
    returned by any step. *)
Lemma blocked_step args s l s' g :
  Inv s -> step args s l s' ->
  g ∈ waiting (cond (payload s)) -> stop (payload s) = true ->
  g ∈ waiting (cond (payload s')) /\ stop (payload s') = true /\
  returned s' !! g = None.
Proof.
  intros [(Hl & Hp & Hw & Hn & Hr) _] Hstep Hg Hs.
  assert (returned s !! g = None) as Hret by (apply Hr; by left).
  assert (full (payload s) = None) as Hf.
  { destruct (full (payload s)) eqn:E; [|done].
    rewrite Hw in Hg by eauto. by apply elem_of_nil in Hg. }
  destruct Hstep as [s d Hd0|s Hph|s Hex|s Hex|s Hph Hc0|s r p' Hph Hu|s Hph Hs'
                    |s Hph Hc0|s r p' HR|s r p' HR|s g0 o p' Hg1 Hg2 Hg3 HR|s g0 r p' HR];
    simpl; try done.
  - destruct r as [b f|err]; simpl in Hu.
    + rewrite update_stale in Hu by done. by injection Hu as <-.
    + unfold ret in Hu. by injection Hu as <-.
  - by apply Resolve_Done_inv in HR as (_ & _ & ->).
  - rewrite ResolveEmpty_unlocked in HR by done. by injection HR as _ <-.
  - rewrite ResolveFull_begin_stopped in HR by done. injection HR as <- <-.
    simpl. split_and!; [done|done|].
    rewrite lookup_insert_ne; [done|]. by intros ->.
  - destruct (ResolveFull_resume_cases (payload s) g0 Hl)
      as [(Hin & HR')|[(Hin & _ & HR')|(b & _ & Hf' & _)]];
      [rewrite HR in HR'; done|rewrite HR in HR'; done|congruence].
Qed.

Lemma blocked_steps args s ls s' g :
  steps args s ls s' -> Inv s ->
  g ∈ waiting (cond (payload s)) -> stop (payload s) = true ->
  g ∈ waiting (cond (payload s')) /\ stop (payload s') = true /\
  returned s' !! g = None.
Proof.
  induction 1 as [s|s l s1 ls s2 Hstep Hsteps IH]; intros HI Hg Hs.
  - destruct HI as [(_ & _ & _ & _ & Hr) _]. split_and!; [done|done|].
    apply Hr. by left.
  - destruct (blocked_step _ _ _ _ _ HI Hstep Hg Hs) as (? & ? & _).
    apply IH; eauto using Inv_step.
Qed.

(** C1, as amended. In every state of a build request: a caller suspended
    in [ResolveFull] is not released by cancellation, for once the [stop]
    channel is closed it stays suspended, and has not returned, in every
    state that any execution reaches afterwards ([Resolve] does not
    broadcast and every later [update] returns before its broadcast); a
    call of [ResolveFull] returns the no-result value [nil] exactly when
    [full] is [nil] and the channel is already closed at the call; and a
    caller that returns from the wait never returns [nil]. *)
Theorem blocked_ResolveFull_stays_blocked_after_Resolve args s :
  reachable args s ->
  (forall g, g ∈ waiting (cond (payload s)) -> stop (payload s) = true ->
     forall ls s', steps args s ls s' ->
       g ∈ waiting (cond (payload s')) /\ returned s' !! g = None) /\
  (forall g o p', ResolveFull_begin g (payload s) = Done o p' ->
     o = Returned None <-> full (payload s) = None /\ stop (payload s) = true) /\
  (forall g r s', step args s (LResume g r) s' ->
     exists b, full (payload s) = Some b /\ r = Some (BlockToExecutableData b)).
Proof.
  intros HI%reachable_Inv. split_and!.
  - intros g Hg Hs ls s' Hsteps.
    destruct (blocked_steps _ _ _ _ _ Hsteps HI Hg Hs) as (? & _ & ?). done.
  - intros g o p' HR. destruct HI as [(Hl & _) _].
    destruct (ResolveFull_begin_cases (payload s) g Hl)
      as [(b & Hf & HR')|[(Hf & Hs' & HR')|(Hf & Hs' & HR')]];
      rewrite HR in HR'; injection HR' as -> ->.
    + split; [done|]. intros [? _]. congruence.
    + done.
    + split; [done|]. intros [_ ?]. congruence.
  - intros g r s' Hstep. destruct HI as [(Hl & _) _].
    inversion Hstep as [| | | | | | | | | | |s0 g0 r0 p' HR]; subst.
    destruct (ResolveFull_resume_cases (payload s) g Hl)
      as [(Hin & HR')|[(Hin & Hf & HR')|(b & Hin & Hf & HR')]];
      rewrite HR in HR'; try done. injection HR' as -> ->. eauto.
Qed.

(** C7. In every state of a build request, a rejected update (the channel
    open, a block stored, the fee not higher than the stored one) leaves the
    payload exactly as it was: its broadcast finds nobody waiting. An update
    that does wake a waiter is one that found [full] unset and stored its
    block. *)
Theorem rejected_update_changes_nothing args s b f :
  reachable args s ->
  exists p',
    update b f (payload s) = Done tt p' /\
    (stop (payload s) = false ->
     is_Some (full (payload s)) ->
     (exists f0, fullFees (payload s) = Some f0 /\ f <= f0) ->
     p' = payload s) /\
    (notified (cond p') <> notified (cond (payload s)) ->
     stop (payload s) = false /\ full (payload s) = None /\
     full p' = Some b /\ fullFees p' = Some f).
Proof.
  intros [(Hl & Hp & Hw & Hn & Hr) _]%reachable_Inv.
  assert (forall p : Payload, is_Some (full p) -> waiting (cond p) = [] ->
            set_cond (Broadcast (cond p)) p = p) as Hquiet.
  { intros [? ? ? ? ? [w n]] _. simpl. intros ->.
    unfold set_cond, Broadcast. simpl. by rewrite app_nil_r. }
  destruct (update_cases (payload s) b f Hl Hp)
    as [(Hs & Hu)|[(Hs & Hf & Hu)|[(f0 & Hs & Hf & Hf0 & Hlt & Hu)
                                  |(f0 & Hs & Hf & Hf0 & Hle & Hu)]]];
    rewrite Hu; eexists; (split; [done|]); split.
  - congruence.
  - done.
  - intros _ [? ?]. congruence.
  - done.
  - intros _ _ (f0' & ? & ?). assert (f0' = f0) by congruence. lia.
  - simpl. rewrite (Hw Hf), app_nil_r. done.
  - intros _ _ _. by apply Hquiet, Hw.
  - rewrite Hquiet by eauto. done.
Qed.

(** ** The goroutine *)


(** C9. When the loop returns through the [endTimer] case the payload is
    left as it was, its [stop] channel included; the only step that closes
    the channel is a call of [Resolve]; and in every state, also after the
    goroutine has returned, [Resolve] can be called: it returns the
    conversion of [full] when set and of [empty] otherwise, and closes the
    channel without touching the goroutine. *)
Theorem deadline_exit_leaves_stop_open args s :
  reachable args s ->
  (forall s', step args s LSelEnd s' ->
     payload s' = payload s /\ phase s' = Stopped) /\
  (forall l s', step args s l s' ->
     stop (payload s) = false -> stop (payload s') = true ->
     exists r, l = LResolve r) /\
  (exists s',
     step args s (LResolve (BlockToExecutableData (latest (payload s)))) s' /\
     stop (payload s') = true /\ full (payload s') = full (payload s) /\
     phase s' = phase s).
Proof.
  intros HI%reachable_Inv. pose proof HI as [(Hl & Hp & Hw & Hn & Hr) _].
  split_and!.
  - intros s' Hstep. inversion Hstep; subst. done.
  - intros l s' Hstep Hs Hs'.
    destruct Hstep as [s d Hd0|s Hph|s Hex|s Hex|s Hph Hc0|s r p' Hph Hu|s Hph Hs0
                      |s Hph Hc0|s r p' HR|s r p' HR|s g0 o p' Hg1 Hg2 Hg3 HR|s g0 r p' HR];
      simpl in Hs'; try congruence.
    + exfalso. destruct r as [b f|err]; simpl in Hu.
      * destruct (updates_monotone [(b, f)] (payload s) Hl Hp) as (q & Hq & _ & _ & Hsq & _).
        simpl in Hq. rewrite Hu in Hq. injection Hq as <-. congruence.
      * unfold ret in Hu. injection Hu as <-. congruence.
    + eauto.
    + exfalso. rewrite ResolveEmpty_unlocked in HR by done.
      injection HR as _ <-. congruence.
    + exfalso.
      destruct (ResolveFull_begin_cases (payload s) g0 Hl)
        as [(b & Hf & HR')|[(Hf & Hs1 & HR')|(Hf & Hs1 & HR')]];
        rewrite HR in HR'; injection HR' as -> ->;
        simpl in Hs'; congruence.
    + exfalso.
      destruct (ResolveFull_resume_cases (payload s) g0 Hl)
        as [(Hin & HR')|[(Hin & Hf & HR')|(b & Hin & Hf & HR')]];
        rewrite HR in HR'; try done. injection HR' as -> ->.
      simpl in Hs'. congruence.
  - eexists. split; [apply step_Resolve; by apply Resolve_unlocked|done].
Qed.

(** C10. In every state of a build request, a caller that a broadcast has
    woken finds [full] set: the rest of [ResolveFull] converts that block
    and returns the result, it never applies the conversion to [nil]. Over
    all steps, a return from the wait carries a result, and [ResolveFull]
    returns [nil] only from the branch taken before waiting, with [full]
    unset and the channel closed. *)
Theorem woken_ResolveFull_finds_full args s :
  reachable args s ->
  (forall g, g ∈ notified (cond (payload s)) ->
     exists b p', full (payload s) = Some b /\
       ResolveFull_resume g (payload s)
       = Done (Some (BlockToExecutableData b)) p') /\
  (forall g, ResolveFull_resume g (payload s) <> Panic) /\
  (forall g, ResolveFull_begin g (payload s) <> Panic) /\
  (forall l s', step args s l s' ->
     match l with
     | LResume g r =>
         exists b, full (payload s) = Some b /\ r = Some (BlockToExecutableData b)
     | LResolveFull g (Returned None) =>
         full (payload s) = None /\ stop (payload s) = true
     | _ => True
     end).
Proof.
  intros [(Hl & Hp & Hw & Hn & Hr) _]%reachable_Inv. split_and!.
  - intros g Hg. destruct (Hn g Hg) as [b Hf].
    eexists _, _. split; [done|]. by apply ResolveFull_resume_full.
  - intros g.
    destruct (ResolveFull_resume_cases (payload s) g Hl)
      as [(Hin & HR')|[(Hin & Hf & HR')|(b & Hin & Hf & HR')]];
      [by rewrite HR'| |by rewrite HR'].
    destruct (Hn g Hin) as [b Hb]. congruence.
  - intros g.
    destruct (ResolveFull_begin_cases (payload s) g Hl)
      as [(b & Hf & HR')|[(Hf & Hs1 & HR')|(Hf & Hs1 & HR')]]; by rewrite HR'.
  - intros l s' Hstep.
    destruct Hstep as [s d Hd0|s Hph|s Hex|s Hex|s Hph Hc0|s r p' Hph Hu|s Hph Hs0
                      |s Hph Hc0|s r p' HR|s r p' HR|s g0 o p' Hg1 Hg2 Hg3 HR|s g0 r p' HR];
      try done.
    + destruct (ResolveFull_begin_cases (payload s) g0 Hl)
        as [(b & Hf & HR')|[(Hf & Hs1 & HR')|(Hf & Hs1 & HR')]];
        rewrite HR in HR'; injection HR' as -> ->; done.
    + destruct (ResolveFull_resume_cases (payload s) g0 Hl)
        as [(Hin & HR')|[(Hin & Hf & HR')|(b & Hin & Hf & HR')]];
        rewrite HR in HR'; try done. injection HR' as -> ->. eauto.
Qed.

(** ** The step function takes steps of the relation *)

Lemma expiredb_expired t0 (t : Timer) : expiredb t0 t = true -> expired t0 t.
Proof.
  unfold expiredb, expired. destruct (deadline t) as [d|]; [|done].
  intros Hd%bool_decide_eq_true. eauto.
Qed.

Lemma exec_step args c s l s' : exec args c s = Some (l, s') -> step args s l s'.
Proof.
  destruct c; simpl.
  - case_bool_decide; [|done]. intros [= <- <-]. by constructor.
  - destruct (phase s) eqn:Hph; try done. intros [= <- <-]. by constructor.
  - destruct (expiredb _ (timer s)) eqn:He; [|done]. intros [= <- <-].
    constructor. by apply expiredb_expired.
  - destruct (expiredb _ (endTimer s)) eqn:He; [|done]. intros [= <- <-].
    constructor. by apply expiredb_expired.
  - destruct (phase s) eqn:Hph; try done.
    destruct (C (timer s)) eqn:HC; [|done]. intros [= <- <-]. by constructor.
  - destruct (phase s) eqn:Hph; try done.
    destruct (apply_build r (payload s)) as [[] p'| |] eqn:Hu; try done.
    intros [= <- <-]. by econstructor.
  - destruct (phase s) eqn:Hph; try done.
    destruct (stop (payload s)) eqn:Hs; [|done]. intros [= <- <-]. by constructor.
  - destruct (phase s) eqn:Hph; try done.
    destruct (C (endTimer s)) eqn:HC; [|done]. intros [= <- <-]. by constructor.
  - destruct (Resolve (payload s)) as [r p'| |] eqn:HR; try done.
    intros [= <- <-]. by constructor.
  - destruct (ResolveEmpty (payload s)) as [r p'| |] eqn:HR; try done.
    intros [= <- <-]. by constructor.
  - destruct (bool_decide (g ∉ waiting _) && bool_decide (g ∉ notified _)) eqn:Hg;
      [|done].
    apply andb_prop in Hg as [Hg1%bool_decide_eq_true Hg2%bool_decide_eq_true].
    destruct (returned s !! g) eqn:Hret; [done|].
    destruct (ResolveFull_begin g (payload s)) as [o p'| |] eqn:HR; try done.
    intros [= <- <-]. by constructor.
  - destruct (ResolveFull_resume g (payload s)) as [r p'| |] eqn:HR; try done.
    intros [= <- <-]. by constructor.
Qed.

Lemma run_steps args cs s ls s' : run args cs s = Some (ls, s') -> steps args s ls s'.
Proof.
  revert s ls. induction cs as [|c cs IH]; intros s ls; simpl.
  - intros [= <- <-]. constructor.
  - destruct (exec args c s) as [[l s1]|] eqn:He; [|done].
    destruct (run args cs s1) as [[ls1 s2]|] eqn:Hr; [|done].
    intros [= <- <-]. econstructor; [by eapply exec_step|by apply IH].
Qed.

Lemma run_reachable args cs e t0 h ls s :
  run args cs (init e t0 h) = Some (ls, s) -> reachable args s.
Proof. intros Hr. exists e, t0, h, ls. by eapply run_steps. Qed.

(** ** Whole executions *)

Lemma evolves_refl p : evolves p p.
Proof.
  split_and!; try done. intros f0 ?. exists f0. split_and!; [done|lia|done].
Qed.

Lemma evolves_trans p1 p2 p3 : evolves p1 p2 -> evolves p2 p3 -> evolves p1 p3.
Proof.
  intros (He1 & Hs1 & Hf1 & Hm1) (He2 & Hs2 & Hf2 & Hm2). split_and!.
  - congruence.
  - intros Hs. destruct (Hs1 Hs) as (Hs' & ? & ?).
    destruct (Hs2 Hs') as (? & ? & ?). split_and!; congruence.
  - eauto.
  - intros f0 Hf0. destruct (Hm1 f0 Hf0) as (f1 & Hf1' & Hle1 & Hb1).
    destruct (Hm2 f1 Hf1') as (f2 & Hf2' & Hle2 & Hb2).
    exists f2. split_and!; [done|lia|].
    intros ->. assert (f1 = f0) as -> by lia. rewrite Hb2, Hb1; done.
Qed.

(** A change of the condition variable or a closing of the channel alone. *)
Lemma evolves_same_blocks p p' :
  empty p' = empty p -> full p' = full p -> fullFees p' = fullFees p ->
  (stop p = true -> stop p' = true) ->
  evolves p p'.
Proof.
  intros He Hf Hff Hs. split_and!; [done|by eauto| |].
  - by rewrite Hf.
  - intros f0 Hf0. exists f0. rewrite Hff. split_and!; [done|lia|done].
Qed.

Lemma update_evolves p b f p' :
  lock p = false -> paired p -> update b f p = Done tt p' -> evolves p p'.
Proof.
  intros Hl Hp Hu.
  destruct (update_cases p b f Hl Hp)
    as [(Hs & Hu')|[(Hs & Hf & Hu')|[(f0 & Hs & Hf & Hf0 & Hlt & Hu')
                                   |(f0 & Hs & Hf & Hf0 & Hle & Hu')]]];
    rewrite Hu in Hu'; injection Hu' as ->.
  - apply evolves_refl.
  - split_and!; simpl; [done|congruence|eauto|].
    intros f0 Hf0. rewrite (paired_nil p Hp Hf) in Hf0. done.
  - split_and!; simpl; [done|congruence|eauto|].
    intros f0' Hf0'. assert (f0' = f0) as -> by congruence.
    exists f. split_and!; [done|lia|lia].
  - by apply evolves_same_blocks.
Qed.

Lemma step_evolves args s l s' :
  step args s l s' -> Inv s -> evolves (payload s) (payload s').
Proof.
  intros Hstep [(Hl & Hp & Hw & Hn & Hr) _].
  destruct Hstep as [s d Hd0|s Hph|s Hex|s Hex|s Hph Hc0|s r p' Hph Hu|s Hph Hs
                    |s Hph Hc0|s r p' HR|s r p' HR|s g o p' Hg1 Hg2 Hg3 HR|s g r p' HR];
    simpl; try apply evolves_refl.
  - destruct r as [b f|err]; simpl in Hu.
    + by eapply update_evolves.
    + unfold ret in Hu. injection Hu as <-. apply evolves_refl.
  - apply Resolve_Done_inv in HR as (_ & _ & ->). by apply evolves_same_blocks.
  - rewrite ResolveEmpty_unlocked in HR by done. injection HR as _ <-.
    apply evolves_refl.
  - destruct (ResolveFull_begin_cases (payload s) g Hl)
      as [(b & Hf & HR')|[(Hf & Hs & HR')|(Hf & Hs & HR')]];
      rewrite HR in HR'; injection HR' as -> ->; simpl;
      by apply evolves_same_blocks.
  - destruct (ResolveFull_resume_cases (payload s) g Hl)
      as [(Hin & HR')|[(Hin & Hf & HR')|(b & Hin & Hf & HR')]];
      rewrite HR in HR'; try done. injection HR' as -> ->. simpl.
    by apply evolves_same_blocks.
Qed.

Lemma steps_evolves args s ls s' :
  steps args s ls s' -> Inv s -> evolves (payload s) (payload s').
Proof.
  induction 1 as [s|s l s1 ls s2 Hstep Hsteps IH]; intros HI.
  - apply evolves_refl.
  - eapply evolves_trans; [by eapply step_evolves|].
    apply IH. by eapply Inv_step.
Qed.

Lemma set_stop_closed p : stop p = true -> set_stop true p = p.
Proof. intros Hs. destruct p. simpl in *. by subst. Qed.

(** C5. [Resolve] never panics and never blocks on a free mutex. The first
    call returns the conversion of [full] when set and of [empty] otherwise
    and does nothing but close the [stop] channel. From then on the value is
    fixed: a second call and any number of calls in a row return it, any
    sequence of updates in between changes nothing, and a call in any state
    that an execution of the request reaches afterwards (late builds, other
    callers, timers in between) returns the value of the first call and
    leaves the payload as it is. *)
Theorem Resolve_idempotent p :
  lock p = false ->
  exists r p1,
    Resolve p = Done r p1 /\
    r = BlockToExecutableData (latest p) /\
    p1 = set_stop true p /\
    stop p1 = true /\
    Resolve p1 = Done r p1 /\
    (forall n, Resolve_times n p1 = Done (replicate n r) p1) /\
    (forall us, updates us p1 = Done tt p1) /\
    (forall args s ls s',
       reachable args s -> payload s = p1 -> steps args s ls s' ->
       Resolve (payload s') = Done r (payload s')).
Proof.
  intros Hl. exists (BlockToExecutableData (latest p)), (set_stop true p).
  assert (Resolve (set_stop true p)
          = Done (BlockToExecutableData (latest p)) (set_stop true p)) as H1.
  { rewrite Resolve_unlocked by done. unfold latest. by open_payload p. }
  split_and!; [by apply Resolve_unlocked|done|done|done|done| | |].
  - induction n as [|n IH]; simpl; [done|]. by rewrite H1, IH.
  - intros us. by apply updates_stale.
  - intros args s ls s' HI%reachable_Inv Hp Hsteps.
    destruct (steps_evolves _ _ _ _ Hsteps HI) as (He & Hstop & _).
    rewrite Hp in He, Hstop. destruct (Hstop eq_refl) as (Hs' & Hf & _).
    pose proof (Inv_steps _ _ _ _ Hsteps HI) as [(Hl' & _) _].
    rewrite Resolve_unlocked by done. rewrite set_stop_closed by done.
    unfold latest. rewrite Hf, He. done.
Qed.

(** X1. However a build request has run (builds stored, [Resolve] called,
    callers waiting or woken), [ResolveEmpty] returns the conversion of the
    block the payload was created around, and leaves the payload as it is. *)
Theorem ResolveEmpty_always_returns_the_initial_block args e t0 h ls s :
  steps args (init e t0 h) ls s ->
  ResolveEmpty (payload s) = Done (BlockToExecutableData e) (payload s).
Proof.
  intros Hsteps.
  pose proof (Inv_steps _ _ _ _ Hsteps (Inv_init e t0 h)) as [(Hl & _) _].
  destruct (steps_evolves _ _ _ _ Hsteps (Inv_init e t0 h)) as (He & _).
  rewrite ResolveEmpty_unlocked by done. by rewrite He.
Qed.

(** X2. Along every execution of a build request, [full] stays set once it
    is set, the stored fee never gets lower, and as long as the fee is the
    same the stored block is the same: a later state holds either the same
    block or one with a strictly higher fee. *)
Theorem full_stays_set_and_fee_never_drops args s ls s' :
  reachable args s ->
  steps args s ls s' ->
  (is_Some (full (payload s)) -> is_Some (full (payload s'))) /\
  (forall f0, fullFees (payload s) = Some f0 ->
     exists f1, fullFees (payload s') = Some f1 /\ f0 <= f1 /\
                (f1 = f0 -> full (payload s') = full (payload s))).
Proof.
  intros HI%reachable_Inv Hsteps.
  destruct (steps_evolves _ _ _ _ Hsteps HI) as (_ & _ & Hf & Hm). done.
Qed.

(** X3. Once the [stop] channel is closed, whatever happens afterwards (late
    builds, callers of [ResolveFull], timers), [full] and [fullFees] stay
    as they were, and every later [Resolve] returns the value fixed at that
    moment and changes nothing. *)
Theorem Resolve_value_is_fixed_once_stopped args s ls s' :
  reachable args s ->
  stop (payload s) = true ->
  steps args s ls s' ->
  full (payload s') = full (payload s) /\
  fullFees (payload s') = fullFees (payload s) /\
  Resolve (payload s')
  = Done (BlockToExecutableData (latest (payload s))) (payload s').
Proof.
  intros HI%reachable_Inv Hs Hsteps.
  destruct (steps_evolves _ _ _ _ Hsteps HI) as (He & Hstop & _).
  destruct (Hstop Hs) as (Hs' & Hf & Hff).
  pose proof (Inv_steps _ _ _ _ Hsteps HI) as [(Hl & _) _].
  split_and!; [done|done|].
  rewrite Resolve_unlocked by done. rewrite set_stop_closed by done.
  unfold latest. by rewrite Hf, He.
Qed.

(** X4. Once the [stop] channel is closed, [ResolveFull] never waits again:
    in every later state it returns at once, [nil] when no full block had
    been stored by then and the conversion of the stored block otherwise,
    and it changes nothing. *)
Theorem ResolveFull_never_waits_once_stopped args s ls s' g :
  reachable args s ->
  stop (payload s) = true ->
  steps args s ls s' ->
  ResolveFull_begin g (payload s')
  = Done (Returned (BlockToExecutableData <$> full (payload s))) (payload s').
Proof.
  intros HI%reachable_Inv Hs Hsteps.
  destruct (steps_evolves _ _ _ _ Hsteps HI) as (He & Hstop & _).
  destruct (Hstop Hs) as (Hs' & Hf & Hff).
  pose proof (Inv_steps _ _ _ _ Hsteps HI) as [(Hl & _) _].
  destruct (full (payload s)) as [b|] eqn:Hb; simpl.
  - by apply ResolveFull_begin_full.
  - by apply ResolveFull_begin_stopped.
Qed.

(** X5. In every state of a build request [update] runs to its end: the
    mutex is free, and [full] and [fullFees] are set together, so the
    comparison never sees a [nil] fee. The goroutine's step after a
    call of the builder is therefore always possible. *)
Theorem update_always_completes args s :
  reachable args s ->
  (forall b f, exists p', update b f (payload s) = Done tt p' /\ lock p' = false) /\
  (forall r, phase s = Building r -> exists s', step args s LBuildDone s').
Proof.
  intros [(Hl & Hp & _) _]%reachable_Inv.
  assert (forall b f, exists p',
            update b f (payload s) = Done tt p' /\ lock p' = false) as Hu.
  { intros b f.
    destruct (updates_monotone [(b, f)] (payload s) Hl Hp) as (q & Hq & Hlq & _).
    simpl in Hq. destruct (update b f (payload s)) as [[] q1| |]; [|done|done].
    injection Hq as ->. eauto. }
  split; [done|]. intros r Hph. destruct r as [b f|err].
  - destruct (Hu b f) as (p' & Hp' & _). eexists. by eapply step_build_done.
  - eexists. eapply step_build_done; [done|]. reflexivity.
Qed.

(** X6. While a caller waits in [ResolveFull] on a payload whose channel is
    open, the next build that returns without error is accepted whatever its
    fee (nothing is stored yet), empties the waiting list and wakes every
    waiter. Whenever the woken caller afterwards returns from the wait, it
    returns the conversion of the block stored at that moment, never [nil]:
    that block is the one that woke it or a later one with a strictly
    higher fee. *)
Theorem first_update_wakes_the_waiters args s g b f s1 :
  reachable args s ->
  g ∈ waiting (cond (payload s)) ->
  stop (payload s) = false ->
  phase s = Building (BuildOk b f) ->
  step args s LBuildDone s1 ->
  full (payload s1) = Some b /\ fullFees (payload s1) = Some f /\
  waiting (cond (payload s1)) = [] /\
  (forall g', g' ∈ waiting (cond (payload s)) -> g' ∈ notified (cond (payload s1))) /\
  (forall ls s2 r s3,
     steps args s1 ls s2 -> step args s2 (LResume g r) s3 ->
     exists b2 f2,
       r = Some (BlockToExecutableData b2) /\
       full (payload s2) = Some b2 /\ fullFees (payload s2) = Some f2 /\
       f <= f2 /\ (f2 = f -> b2 = b)).
Proof.
  intros HI%reachable_Inv Hg Hs Hph Hdone.
  pose proof HI as [(Hl & Hp & Hw & Hn & Hr) _].
  assert (full (payload s) = None) as Hf.
  { destruct (full (payload s)) eqn:E; [|done].
    rewrite Hw in Hg by eauto. by apply elem_of_nil in Hg. }
  pose proof (Inv_step _ _ _ _ Hdone HI) as HI1.
  inversion Hdone as [| | | | |s0 r0 p' Hph' Hu| | | | | |]; subst.
  rewrite Hph in Hph'. injection Hph' as <-. simpl in Hu.
  rewrite update_first in Hu by done. injection Hu as <-.
  simpl. split_and!; try done.
  - intros g' Hg'. apply elem_of_app. by right.
  - intros ls s2 r s3 Hsteps Hres.
    destruct (steps_evolves _ _ _ _ Hsteps HI1) as (_ & _ & _ & Hm).
    destruct (Hm f eq_refl) as (f2 & Hf2 & Hle & Hsame).
    pose proof (Inv_steps _ _ _ _ Hsteps HI1) as [(Hl2 & _) _].
    inversion Hres as [| | | | | | | | | | |s0 g0 r0 p' HR]; subst.
    destruct (ResolveFull_resume_cases (payload s2) g Hl2)
      as [(Hin & HR')|[(Hin & Hf' & HR')|(b2 & Hin & Hf' & HR')]];
      rewrite HR in HR'; try done. injection HR' as -> ->.
    exists b2, f2. split_and!; try done.
    intros ->. specialize (Hsame eq_refl). simpl in Hsame. congruence.
Qed.

(** ** The goroutine's calls of the builder *)

Lemma step_calls args s l s' :
  step args s l s' ->
  calls s' = calls s ++ (if is_sel_timer l then [args_call args false] else []).
Proof.
  intros Hstep. destruct Hstep; try (destruct o); simpl; by rewrite ?app_nil_r.
Qed.

(** X7. Along every execution, the builder is invoked once for each time
    the goroutine takes the [timer.C] case and by nothing else, always with
    the arguments of the request and [noTxs = false]. *)
Theorem goroutine_calls_builder_once_per_tick args s ls s' :
  steps args s ls s' ->
  calls s' = calls s ++ replicate (builds ls) (args_call args false).
Proof.
  induction 1 as [s|s l s1 ls s2 Hstep Hsteps IH].
  - by rewrite app_nil_r.
  - rewrite IH, (step_calls _ _ _ _ Hstep), <- app_assoc. f_equal.
    unfold builds. rewrite filter_cons. by destruct (is_sel_timer l).
Qed.

Lemma spaced_step args T s l s' :
  step args s l s' -> l <> LSelTimer -> spaced T s -> spaced T s'.
Proof.
  intros Hstep Hl (Hsp & Hb & Hc & Hd).
  destruct Hstep as [s d Hd0|s Hph|s Hex|s Hex|s Hph Hc0|s r p' Hph Hu|s Hph Hs
                    |s Hph Hc0|s r p' HR|s r p' HR|s g o p' Hg1 Hg2 Hg3 HR|s g r p' HR];
    try (destruct o); try done.
  - split_and!; simpl; try done. intros HC. specialize (Hc HC). lia.
  - split_and!; simpl; try done.
    intros _. destruct Hex as (t & Hdt & Hle). by rewrite (Hd t Hdt) in Hle.
  - by destruct (Hb r).
Qed.

Lemma spaced_steps args T s ls s' :
  steps args s ls s' -> LSelTimer ∉ ls -> spaced T s -> spaced T s'.
Proof.
  induction 1 as [s|s l s1 ls s2 Hstep Hsteps IH]; intros Hn Hsp; [done|].
  apply not_elem_of_cons in Hn as [Hne Hn].
  apply IH; [done|]. by eapply spaced_step.
Qed.

(** X8. After a call of the builder has returned at instant [t] (with a
    block or with an error), the goroutine does not call the builder again
    before instant [t + recommit]. *)
Theorem rebuilds_are_recommit_apart args s r s1 ls s2 s3 :
  reachable args s ->
  phase s = Building r ->
  step args s LBuildDone s1 ->
  steps args s1 ls s2 ->
  LSelTimer ∉ ls ->
  step args s2 LSelTimer s3 ->
  now s + recommit <= now s2.
Proof.
  intros [_ (_ & _ & _ & Hb)]%reachable_Inv Hph Hdone Hsteps Hn Hsel.
  assert (spaced (now s + recommit) s1) as Hsp.
  { inversion Hdone as [| | | | |s0 r0 p' Hph' Hu| | | | | |]; subst.
    rewrite (Hb _ Hph'). split_and!; simpl; try done. congruence. }
  destruct (spaced_steps _ _ _ _ _ Hsteps Hn Hsp) as (_ & _ & Hc & _).
  inversion Hsel; subst. by apply Hc.
Qed.

(** ** Where the stored block comes from *)

Local Abbreviation built := (built getSealingBlock).
Local Abbreviation provenance := (provenance getSealingBlock).

Lemma built_more args h0 cs c b f :
  built args h0 cs b f -> built args h0 (cs ++ [c]) b f.
Proof.
  intros (h & Hh0 & Hpre & Hb). exists h. split_and!; [done| |done].
  by apply prefix_app_r.
Qed.

Lemma provenance_same args h0 s s' :
  full (payload s') = full (payload s) ->
  fullFees (payload s') = fullFees (payload s) ->
  calls s' = calls s ->
  (forall b f, phase s' = Building (BuildOk b f) -> phase s = Building (BuildOk b f)) ->
  provenance args h0 s -> provenance args h0 s'.
Proof.
  intros Hf Hff Hc Hph (H0 & H1 & H2). split_and!.
  - by rewrite Hc.
  - intros b Hb. rewrite Hf in Hb. rewrite Hff, Hc. by apply H1.
  - intros b f Hb. rewrite Hc. by apply H2, Hph.
Qed.

Lemma provenance_step args h0 s l s' :
  step args s l s' -> Inv s -> provenance args h0 s -> provenance args h0 s'.
Proof.
  intros Hstep [(Hl & Hp & Hw & Hn & Hr) _] Hprov.
  pose proof Hprov as (H0 & H1 & H2).
  destruct Hstep as [s d Hd0|s Hph|s Hex|s Hex|s Hph Hc0|s r p' Hph Hu|s Hph Hs
                    |s Hph Hc0|s r p' HR|s r p' HR|s g o p' Hg1 Hg2 Hg3 HR|s g r p' HR].
  - by apply (provenance_same args h0 s).
  - apply (provenance_same args h0 s); simpl; try done.
  - by apply (provenance_same args h0 s).
  - by apply (provenance_same args h0 s).
  - split_and!; simpl.
    + by apply prefix_app_r.
    + intros b Hb. destruct (H1 b Hb) as (f & ? & ?).
      exists f. split; [done|]. by apply built_more.
    + intros b f [= Hb]. exists (calls s). done.
  - destruct r as [b f|err]; simpl in Hu.
    + destruct (update_cases (payload s) b f Hl Hp)
        as [(Hs & Hu')|[(Hs & Hf & Hu')|[(f0 & Hs & Hf & Hf0 & Hlt & Hu')
                                       |(f0 & Hs & Hf & Hf0 & Hle & Hu')]]];
        rewrite Hu in Hu'; injection Hu' as ->.
      * by apply (provenance_same args h0 s).
      * split_and!; simpl; [done| |done].
        intros b' [= <-]. exists f. split; [done|]. by apply H2.
      * split_and!; simpl; [done| |done].
        intros b' [= <-]. exists f. split; [done|]. by apply H2.
      * by apply (provenance_same args h0 s).
    + unfold ret in Hu. injection Hu as <-. by apply (provenance_same args h0 s).
  - by apply (provenance_same args h0 s).
  - by apply (provenance_same args h0 s).
  - apply Resolve_Done_inv in HR as (_ & _ & ->).
    by apply (provenance_same args h0 s).
  - rewrite ResolveEmpty_unlocked in HR by done. injection HR as _ <-.
    by apply (provenance_same args h0 s).
  - destruct (ResolveFull_begin_cases (payload s) g Hl)
      as [(b & Hf & HR')|[(Hf & Hs & HR')|(Hf & Hs & HR')]];
      rewrite HR in HR'; injection HR' as -> ->;
      by apply (provenance_same args h0 s).
  - destruct (ResolveFull_resume_cases (payload s) g Hl)
      as [(Hin & HR')|[(Hin & Hf & HR')|(b & Hin & Hf & HR')]];
      rewrite HR in HR'; try done. injection HR' as -> ->.
    by apply (provenance_same args h0 s).
Qed.

Lemma provenance_steps args h0 s ls s' :
  steps args s ls s' -> Inv s -> provenance args h0 s -> provenance args h0 s'.
Proof.
  induction 1; eauto using provenance_step, Inv_step.
Qed.

(** X9. Along every execution of a build request, a block stored in [full]
    is one the builder returned without error to a call that the goroutine
    of this request made (a call recorded after the history the request
    started with) with the request's arguments and [noTxs = false], and
    [fullFees] is the fee returned with it. *)
Theorem stored_block_comes_from_the_builder args e t0 h ls s b :
  steps args (init e t0 h) ls s ->
  full (payload s) = Some b ->
  exists f, fullFees (payload s) = Some f /\ built args h (calls s) b f.
Proof.
  intros Hsteps Hb.
  assert (provenance args h (init e t0 h)) as H0 by (split_and!; simpl; done).
  destruct (provenance_steps _ _ _ _ _ Hsteps (Inv_init e t0 h) H0) as (_ & H1 & _).
  by apply H1.
Qed.

(** ** Start and deadline *)

(** X10. The first build is not delayed: from a goroutine that has not run
    yet, starting it, delivering [timer] and taking the [timer.C] case are
    possible with no time passing, and this calls the builder with the
    arguments of the request and [noTxs = false]. *)
Theorem first_build_starts_at_once args s :
  phase s = Spawned ->
  exists s',
    steps args s [LStart; LFireTimer; LSelTimer] s' /\
    now s' = now s /\
    payload s' = payload s /\
    phase s' = Building (getSealingBlock (calls s) (Parent args) (Timestamp args)
                           (FeeRecipient args) (Random args) false) /\
    calls s' = calls s ++ [args_call args false].
Proof.
  intros Hph. eexists. split.
  - eapply steps_cons; [by apply step_start|].
    eapply steps_cons.
    { apply step_fire_timer. simpl. eexists. split; [done|]. lia. }
    eapply steps_cons; [by apply step_sel_timer|].
    apply steps_nil.
  - done.
Qed.

Lemma endTimer_live_step args s l s' :
  step args s l s' -> endTimer_live s -> endTimer_live s'.
Proof.
  intros Hstep Hlive.
  destruct Hstep as [s d Hd0|s Hph|s Hex|s Hex|s Hph Hc0|s r p' Hph Hu|s Hph Hs
                    |s Hph Hc0|s r p' HR|s r p' HR|s g o p' Hg1 Hg2 Hg3 HR|s g r p' HR];
    try (destruct o); unfold endTimer_live in *; simpl; try done.
  - intros _. by left.
  - intros _. by right.
  - intros _. apply Hlive. by left.
  - intros _. apply Hlive. eauto.
  - intros [?|[? ?]]; done.
  - intros [?|[? ?]]; done.
Qed.

Lemma endTimer_live_steps args s ls s' :
  steps args s ls s' -> endTimer_live s -> endTimer_live s'.
Proof. induction 1; eauto using endTimer_live_step. Qed.

Lemma endTimer_live_reachable args s : reachable args s -> endTimer_live s.
Proof.
  intros (e & t0 & h & ls & Hsteps).
  apply (endTimer_live_steps _ _ _ _ Hsteps).
  intros [?|[? ?]]; done.
Qed.

(** X11. Once twelve seconds have passed since the goroutine created its
    timers, a goroutine at its [select] can return through [endTimer]
    without waiting further: this takes no time, calls no builder and
    leaves the payload, its [stop] channel included, untouched. *)
Theorem goroutine_can_return_after_twelve_seconds args s :
  reachable args s ->
  phase s = Scheduled ->
  born s + Second * 12 <= now s ->
  exists ls s',
    steps args s ls s' /\
    phase s' = Stopped /\
    payload s' = payload s /\ now s' = now s /\ calls s' = calls s.
Proof.
  intros Hreach Hph Hle.
  destruct (endTimer_live_reachable _ _ Hreach (or_introl Hph)) as [Hd|HC].
  - exists [LFireEndTimer; LSelEnd]. eexists. split.
    + eapply steps_cons.
      { apply step_fire_endTimer. eexists. split; [exact Hd|done]. }
      eapply steps_cons; [by apply step_sel_end|]. apply steps_nil.
    + done.
  - exists [LSelEnd]. eexists. split.
    + eapply steps_cons; [by apply step_sel_end|]. apply steps_nil.
    + done.
Qed.

End Properties.

(** * The properties on the concrete request *)

Section OnDemo.

Import Demo.

Lemma after_reachable builder cs :
  is_Some (run BlockToExecutableData builder recommit args cs s0) ->
  reachable BlockToExecutableData builder recommit args (after builder cs).
Proof.
  intros [[ls s] Hr]. unfold after. rewrite Hr. eapply run_reachable. exact Hr.
Qed.

Local Abbreviation step_failing := (step BlockToExecutableData failing recommit).
Local Abbreviation reachable_failing :=
  (reachable BlockToExecutableData failing recommit).
Local Abbreviation Resolve := (Resolve BlockToExecutableData).
Local Abbreviation ResolveFull_begin := (ResolveFull_begin BlockToExecutableData).
Local Abbreviation ResolveFull_resume := (ResolveFull_resume BlockToExecutableData).
Local Abbreviation Resolve_times := (Resolve_times BlockToExecutableData).
Local Abbreviation step := (step BlockToExecutableData getSealingBlock recommit).
Local Abbreviation steps := (steps BlockToExecutableData getSealingBlock recommit).
Local Abbreviation reachable :=
  (reachable BlockToExecutableData getSealingBlock recommit).
Local Abbreviation run := (run BlockToExecutableData getSealingBlock recommit).

Lemma s_hung_reachable : reachable args s_hung.
Proof. apply after_reachable. vm_compute. eauto. Qed.

Lemma s_built_reachable : reachable args s_built.
Proof. apply after_reachable. vm_compute. eauto. Qed.

Lemma s_woken_reachable : reachable args s_woken.
Proof. apply after_reachable. vm_compute. eauto. Qed.

Lemma s_expired_reachable : reachable args s_expired.
Proof. apply after_reachable. vm_compute. eauto. Qed.


(** The three updates of fees 5, 3 and 10: the last one is stored. *)
Example updates_5_3_10 :
  updates [(1%nat, 5); (2%nat, 3); (3%nat, 10)] (newPayload 0%nat)
  = Done tt (set_fullFees (Some 10) (set_full (Some 3%nat) (newPayload 0%nat))).
Proof. reflexivity. Qed.

(** A tie keeps the block stored first. *)
Example updates_tie :
  updates [(1%nat, 5); (2%nat, 5)] (newPayload 0%nat)
  = Done tt (set_fullFees (Some 5) (set_full (Some 1%nat) (newPayload 0%nat))).
Proof. reflexivity. Qed.

(** [buildPayload] with a builder that succeeds, and with one that fails. *)
Example buildPayload_ok :
  buildPayload getSealingBlock args w0
  = ((Some 0%nat, None),
     mkWorld [args_call args true] [newPayload 0%nat] [mkGoroutine 0 args]).
Proof. reflexivity. Qed.

Example buildPayload_err :
  buildPayload failing args w0
  = ((None, Some tt), mkWorld [args_call args true] [] []).
Proof. reflexivity. Qed.

(** Once [Resolve] has closed the channel, the first build is discarded and
    caller 7 cannot resume. *)
Example hung_caller_cannot_resume :
  run args (hang ++ build_once ++ [CResume 7%nat]) s0 = None /\
  is_Some (run args (hang ++ build_once) s0) /\
  is_Some (run args (wake ++ [CResume 7%nat]) s0).
Proof. vm_compute. eauto. Qed.

Lemma paired_p_best : paired p_best.
Proof. unfold paired. simpl. split; eauto. Qed.

Lemma waiting_s_hung : 7%nat ∈ waiting (cond (payload s_hung)).
Proof. vm_compute. apply list_elem_of_here. Qed.

(** C1 fails on the code. Caller 7 enters [ResolveFull] on the fresh payload
    and is suspended; [Resolve] is then called and closes the channel while
    [full] is still [nil]. From that state no execution ever wakes caller 7
    or makes it return. *)
Lemma ResolveFull_hangs_after_Resolve :
  steps args s0 [LResolveFull 7%nat Parked; LResolve 0%nat] s_hung /\
  full (payload s_hung) = None /\
  stop (payload s_hung) = true /\
  7%nat ∈ waiting (cond (payload s_hung)) /\
  ~ (exists ls s', steps args s_hung ls s' /\
       (7%nat ∉ waiting (cond (payload s')) \/ is_Some (returned s' !! 7%nat))).
Proof.
  split_and!.
  - apply run_steps with hang. vm_compute. reflexivity.
  - reflexivity.
  - reflexivity.
  - apply waiting_s_hung.
  - intros (ls & s' & Hsteps & Hrel).
    destruct (blocked_steps _ _ _ _ _ _ _ _ Hsteps
                (reachable_Inv _ _ _ _ _ s_hung_reachable) waiting_s_hung eq_refl)
      as (Hw & _ & Hret).
    destruct Hrel as [Hn|[x Hx]]; [by apply Hn|].
    discriminate (eq_trans (eq_sym Hret) Hx).
Qed.

Lemma blocked_ResolveFull_stays_blocked_after_Resolve_witness :
  reachable args s_hung /\
  (forall g, g ∈ waiting (cond (payload s_hung)) -> stop (payload s_hung) = true ->
     forall ls s', steps args s_hung ls s' ->
       g ∈ waiting (cond (payload s')) /\ returned s' !! g = None) /\
  (forall g o p', ResolveFull_begin g (payload s_hung) = Done o p' ->
     o = Returned None <->
     full (payload s_hung) = None /\ stop (payload s_hung) = true) /\
  (forall g r s', step args s_hung (LResume g r) s' ->
     exists b, full (payload s_hung) = Some b /\
               r = Some (BlockToExecutableData b)).
Proof.
  split; [exact s_hung_reachable|].
  exact (blocked_ResolveFull_stays_blocked_after_Resolve
           BlockToExecutableData getSealingBlock recommit args s_hung
           s_hung_reachable).
Defined.

(** C2 fails on the code. [Resolve] on the fresh payload closes the channel
    and leaves [full] unset; the update of block 1 with fee 5 that follows
    is discarded, although nothing is stored. *)
Lemma update_on_cancelled_payload_stores_nothing :
  Resolve (newPayload 0%nat) = Done 0%nat p_cancelled /\
  full p_cancelled = None /\
  update 1%nat 5 p_cancelled = Done tt p_cancelled /\
  ~ (full p_cancelled = None \/
     (exists f0, fullFees p_cancelled = Some f0 /\ f0 < 5) ->
     forall p', update 1%nat 5 p_cancelled = Done tt p' ->
                full p' = Some 1%nat /\ fullFees p' = Some 5).
Proof.
  split_and!; [reflexivity..|].
  intros H. destruct (H (or_introl eq_refl) p_cancelled eq_refl) as [? _].
  discriminate.
Qed.

Lemma update_accepts_only_strictly_higher_witness :
  lock p_best = false /\
  paired p_best /\
  exists q q',
    updates [(5%nat, 3)] p_best = Done tt q /\ update 6%nat 10 q = Done tt q' /\
    (stop q = false ->
       (full q = None \/ exists f0, fullFees q = Some f0 /\ f0 < 10) ->
       full q' = Some 6%nat /\ fullFees q' = Some 10) /\
    (stop q = false ->
       (exists f0, fullFees q = Some f0 /\ 10 <= f0) ->
       full q' = full q /\ fullFees q' = fullFees q) /\
    (stop q = true -> q' = q) /\
    (forall f0, fullFees p_best = Some f0 ->
       exists f1, fullFees q' = Some f1 /\ f0 <= f1 /\
                  (f1 = f0 -> full q' = full p_best)).
Proof.
  split; [reflexivity|].
  split; [exact paired_p_best|].
  exact (update_accepts_only_strictly_higher p_best [(5%nat, 3)] 6%nat 10
           eq_refl paired_p_best).
Defined.

Lemma update_after_Resolve_is_noop_witness :
  Resolve p_best = Done 4%nat (set_stop true p_best) /\
  stop (set_stop true p_best) = true /\
  updates [(9%nat, 100)] (set_stop true p_best) = Done tt (set_stop true p_best) /\
  (forall b f, update b f (set_stop true p_best) = Done tt (set_stop true p_best)) /\
  Resolve (set_stop true p_best) = Done 4%nat (set_stop true p_best).
Proof.
  split; [reflexivity|].
  exact (update_after_Resolve_is_noop BlockToExecutableData p_best 4%nat
           (set_stop true p_best) [(9%nat, 100)] eq_refl).
Defined.

Lemma Resolve_idempotent_witness :
  lock p_best = false /\
  exists r p1,
    Resolve p_best = Done r p1 /\
    r = BlockToExecutableData (latest p_best) /\
    p1 = set_stop true p_best /\
    stop p1 = true /\
    Resolve p1 = Done r p1 /\
    (forall n, Resolve_times n p1 = Done (replicate n r) p1) /\
    (forall us, updates us p1 = Done tt p1) /\
    (forall args s ls s',
       reachable args s -> payload s = p1 -> steps args s ls s' ->
       Resolve (payload s') = Done r (payload s')).
Proof.
  split; [reflexivity|].
  exact (Resolve_idempotent BlockToExecutableData getSealingBlock recommit
           p_best eq_refl).
Defined.

Lemma rejected_update_changes_nothing_witness :
  reachable args s_built /\
  exists p',
    update 9%nat 1 (payload s_built) = Done tt p' /\
    (stop (payload s_built) = false ->
     is_Some (full (payload s_built)) ->
     (exists f0, fullFees (payload s_built) = Some f0 /\ 1 <= f0) ->
     p' = payload s_built) /\
    (notified (cond p') <> notified (cond (payload s_built)) ->
     stop (payload s_built) = false /\ full (payload s_built) = None /\
     full p' = Some 9%nat /\ fullFees p' = Some 1).
Proof.
  split; [exact s_built_reachable|].
  exact (rejected_update_changes_nothing BlockToExecutableData getSealingBlock
           recommit args s_built 9%nat 1 s_built_reachable).
Defined.



Lemma deadline_exit_leaves_stop_open_witness :
  reachable args s_expired /\
  (forall s', step args s_expired LSelEnd s' ->
     payload s' = payload s_expired /\ phase s' = Stopped) /\
  (forall l s', step args s_expired l s' ->
     stop (payload s_expired) = false -> stop (payload s') = true ->
     exists r, l = LResolve r) /\
  (exists s',
     step args s_expired
          (LResolve (BlockToExecutableData (latest (payload s_expired)))) s' /\
     stop (payload s') = true /\ full (payload s') = full (payload s_expired) /\
     phase s' = phase s_expired).
Proof.
  split; [exact s_expired_reachable|].
  exact (deadline_exit_leaves_stop_open BlockToExecutableData getSealingBlock
           recommit args s_expired s_expired_reachable).
Defined.

Lemma woken_ResolveFull_finds_full_witness :
  reachable args s_woken /\
  (forall g, g ∈ notified (cond (payload s_woken)) ->
     exists b p', full (payload s_woken) = Some b /\
       ResolveFull_resume g (payload s_woken)
       = Done (Some (BlockToExecutableData b)) p') /\
  (forall g, ResolveFull_resume g (payload s_woken) <> Panic) /\
  (forall g, ResolveFull_begin g (payload s_woken) <> Panic) /\
  (forall l s', step args s_woken l s' ->
     match l with
     | LResume g r =>
         exists b, full (payload s_woken) = Some b /\
                   r = Some (BlockToExecutableData b)
     | LResolveFull g (Returned None) =>
         full (payload s_woken) = None /\ stop (payload s_woken) = true
     | _ => True
     end).
Proof.
  split; [exact s_woken_reachable|].
  exact (woken_ResolveFull_finds_full BlockToExecutableData getSealingBlock
           recommit args s_woken s_woken_reachable).
Defined.

(** ** The properties of whole executions on the concrete request *)

Local Abbreviation ResolveEmpty := (ResolveEmpty BlockToExecutableData).
Local Abbreviation built := (built getSealingBlock).

Lemma wake_steps :
  steps args s0
    [LResolveFull 7%nat Parked; LStart; LFireTimer; LSelTimer; LBuildDone] s_woken.
Proof. apply run_steps with wake. vm_compute. reflexivity. Qed.

Lemma rearm_steps : steps args s_built [LTick (2 * Second); LFireTimer] s_rearmed.
Proof.
  apply run_steps with [CTick (2 * Second); CFireTimer]. vm_compute. reflexivity.
Qed.

Lemma second_steps :
  steps args s_built [LTick (2 * Second); LFireTimer; LSelTimer] s_second.
Proof.
  apply run_steps with [CTick (2 * Second); CFireTimer; CSelTimer].
  vm_compute. reflexivity.
Qed.

Lemma late_build_steps :
  steps args s_hung [LStart; LFireTimer; LSelTimer; LBuildDone]
        (after getSealingBlock (hang ++ build_once)).
Proof. apply run_steps with build_once. vm_compute. reflexivity. Qed.

Lemma s_building_reachable : reachable args s_building.
Proof. apply after_reachable. vm_compute. eauto. Qed.

Lemma s_late_reachable : reachable args s_late.
Proof. apply after_reachable. vm_compute. eauto. Qed.

Lemma building_done_step : step args s_building LBuildDone s_built.
Proof. apply exec_step with CBuildDone. vm_compute. reflexivity. Qed.

Lemma second_sel_step : step args s_rearmed LSelTimer s_second.
Proof. apply exec_step with CSelTimer. vm_compute. reflexivity. Qed.

Lemma rearm_no_sel : LSelTimer ∉ [LTick (2 * Second); LFireTimer : @label nat].
Proof.
  intros H. apply elem_of_cons in H as [H|H]; [discriminate H|].
  apply elem_of_cons in H as [H|H]; [discriminate H|].
  by apply elem_of_nil in H.
Qed.

Lemma ResolveEmpty_always_returns_the_initial_block_witness :
  steps args (init 0%nat 0 [args_call args true])
    [LResolveFull 7%nat Parked; LStart; LFireTimer; LSelTimer; LBuildDone] s_woken /\
  ResolveEmpty (payload s_woken) = Done 0%nat (payload s_woken).
Proof.
  split; [exact wake_steps|].
  exact (ResolveEmpty_always_returns_the_initial_block BlockToExecutableData
           getSealingBlock recommit args 0%nat 0 [args_call args true] _ s_woken
           wake_steps).
Defined.

Lemma full_stays_set_and_fee_never_drops_witness :
  reachable args s_built /\
  steps args s_built [LTick (2 * Second); LFireTimer; LSelTimer] s_second /\
  (is_Some (full (payload s_built)) -> is_Some (full (payload s_second))) /\
  (forall f0, fullFees (payload s_built) = Some f0 ->
     exists f1, fullFees (payload s_second) = Some f1 /\ f0 <= f1 /\
                (f1 = f0 -> full (payload s_second) = full (payload s_built))).
Proof.
  split; [exact s_built_reachable|].
  split; [exact second_steps|].
  exact (full_stays_set_and_fee_never_drops BlockToExecutableData getSealingBlock
           recommit args s_built _ s_second s_built_reachable second_steps).
Defined.

Lemma Resolve_value_is_fixed_once_stopped_witness :
  reachable args s_hung /\
  stop (payload s_hung) = true /\
  steps args s_hung [LStart; LFireTimer; LSelTimer; LBuildDone]
        (after getSealingBlock (hang ++ build_once)) /\
  full (payload (after getSealingBlock (hang ++ build_once)))
  = full (payload s_hung) /\
  fullFees (payload (after getSealingBlock (hang ++ build_once)))
  = fullFees (payload s_hung) /\
  Resolve (payload (after getSealingBlock (hang ++ build_once)))
  = Done (BlockToExecutableData (latest (payload s_hung)))
         (payload (after getSealingBlock (hang ++ build_once))).
Proof.
  split; [exact s_hung_reachable|].
  split; [reflexivity|].
  split; [exact late_build_steps|].
  exact (Resolve_value_is_fixed_once_stopped BlockToExecutableData getSealingBlock
           recommit args s_hung _ _ s_hung_reachable eq_refl late_build_steps).
Defined.

Lemma ResolveFull_never_waits_once_stopped_witness :
  reachable args s_hung /\
  stop (payload s_hung) = true /\
  steps args s_hung [LStart; LFireTimer; LSelTimer; LBuildDone]
        (after getSealingBlock (hang ++ build_once)) /\
  ResolveFull_begin 8%nat (payload (after getSealingBlock (hang ++ build_once)))
  = Done (Returned (BlockToExecutableData <$> full (payload s_hung)))
         (payload (after getSealingBlock (hang ++ build_once))).
Proof.
  split; [exact s_hung_reachable|].
  split; [reflexivity|].
  split; [exact late_build_steps|].
  exact (ResolveFull_never_waits_once_stopped BlockToExecutableData getSealingBlock
           recommit args s_hung _ _ 8%nat s_hung_reachable eq_refl late_build_steps).
Defined.

Lemma update_always_completes_witness :
  reachable args s_building /\
  (forall b f, exists p',
     update b f (payload s_building) = Done tt p' /\ lock p' = false) /\
  (forall r, phase s_building = Building r ->
     exists s', step args s_building LBuildDone s').
Proof.
  split; [exact s_building_reachable|].
  exact (update_always_completes BlockToExecutableData getSealingBlock recommit
           args s_building s_building_reachable).
Defined.

Lemma s_waiting_building_reachable : reachable args s_waiting_building.
Proof. apply after_reachable. vm_compute. eauto. Qed.

Lemma waiting_s_waiting_building :
  7%nat ∈ waiting (cond (payload s_waiting_building)).
Proof. vm_compute. apply list_elem_of_here. Qed.

Lemma waiting_building_done_step :
  step args s_waiting_building LBuildDone s_woken.
Proof. apply exec_step with CBuildDone. vm_compute. reflexivity. Qed.

(** Caller 7, woken by block 1, resumes after a second build has stored
    block 2 and returns block 2. *)
Example woken_caller_returns_the_later_block :
  steps args s_woken [LTick (2 * Second); LFireTimer; LSelTimer; LBuildDone]
        s_woken_second /\
  exists s', step args s_woken_second (LResume 7%nat (Some 2%nat)) s'.
Proof.
  split.
  - apply run_steps with [CTick (2 * Second); CFireTimer; CSelTimer; CBuildDone].
    vm_compute. reflexivity.
  - eexists. apply exec_step with (CResume 7%nat). vm_compute. reflexivity.
Qed.

Lemma first_update_wakes_the_waiters_witness :
  reachable args s_waiting_building /\
  7%nat ∈ waiting (cond (payload s_waiting_building)) /\
  stop (payload s_waiting_building) = false /\
  phase s_waiting_building = Building (BuildOk 1%nat 1) /\
  step args s_waiting_building LBuildDone s_woken /\
  full (payload s_woken) = Some 1%nat /\ fullFees (payload s_woken) = Some 1 /\
  waiting (cond (payload s_woken)) = [] /\
  (forall g', g' ∈ waiting (cond (payload s_waiting_building)) ->
     g' ∈ notified (cond (payload s_woken))) /\
  (forall ls s2 r s3,
     steps args s_woken ls s2 -> step args s2 (LResume 7%nat r) s3 ->
     exists b2 f2,
       r = Some (BlockToExecutableData b2) /\
       full (payload s2) = Some b2 /\ fullFees (payload s2) = Some f2 /\
       1 <= f2 /\ (f2 = 1 -> b2 = 1%nat)).
Proof.
  split; [exact s_waiting_building_reachable|].
  split; [exact waiting_s_waiting_building|].
  split; [reflexivity|].
  split; [reflexivity|].
  split; [exact waiting_building_done_step|].
  exact (first_update_wakes_the_waiters BlockToExecutableData getSealingBlock
           recommit args s_waiting_building 7%nat 1%nat 1 s_woken
           s_waiting_building_reachable waiting_s_waiting_building eq_refl
           eq_refl waiting_building_done_step).
Defined.

Lemma goroutine_calls_builder_once_per_tick_witness :
  steps args s_built [LTick (2 * Second); LFireTimer; LSelTimer] s_second /\
  calls s_second
  = calls s_built
    ++ replicate (builds [LTick (2 * Second); LFireTimer; LSelTimer : @label nat])
                 (args_call args false).
Proof.
  split; [exact second_steps|].
  exact (goroutine_calls_builder_once_per_tick BlockToExecutableData
           getSealingBlock recommit args s_built _ s_second second_steps).
Defined.

Lemma rebuilds_are_recommit_apart_witness :
  reachable args s_building /\
  phase s_building = Building (BuildOk 1%nat 1) /\
  step args s_building LBuildDone s_built /\
  steps args s_built [LTick (2 * Second); LFireTimer] s_rearmed /\
  (LSelTimer ∉ [LTick (2 * Second); LFireTimer : @label nat]) /\
  step args s_rearmed LSelTimer s_second /\
  now s_building + recommit <= now s_rearmed.
Proof.
  split; [exact s_building_reachable|].
  split; [reflexivity|].
  split; [exact building_done_step|].
  split; [exact rearm_steps|].
  split; [exact rearm_no_sel|].
  split; [exact second_sel_step|].
  exact (rebuilds_are_recommit_apart BlockToExecutableData getSealingBlock recommit
           args s_building (BuildOk 1%nat 1) s_built _ s_rearmed s_second
           s_building_reachable eq_refl building_done_step rearm_steps
           rearm_no_sel second_sel_step).
Defined.

Lemma build_once_steps :
  steps args (init 0%nat 0 [args_call args true])
        [LStart; LFireTimer; LSelTimer; LBuildDone] s_built.
Proof. apply run_steps with build_once. vm_compute. reflexivity. Qed.

Lemma stored_block_comes_from_the_builder_witness :
  steps args (init 0%nat 0 [args_call args true])
        [LStart; LFireTimer; LSelTimer; LBuildDone] s_built /\
  full (payload s_built) = Some 1%nat /\
  exists f, fullFees (payload s_built) = Some f /\
            built args [args_call args true] (calls s_built) 1%nat f.
Proof.
  split; [exact build_once_steps|].
  split; [reflexivity|].
  exact (stored_block_comes_from_the_builder BlockToExecutableData getSealingBlock
           recommit args 0%nat 0 [args_call args true] _ s_built 1%nat
           build_once_steps eq_refl).
Defined.

Lemma first_build_starts_at_once_witness :
  phase s0 = Spawned /\
  exists s',
    steps args s0 [LStart; LFireTimer; LSelTimer] s' /\
    now s' = now s0 /\
    payload s' = payload s0 /\
    phase s' = Building (getSealingBlock (calls s0) (Parent args) (Timestamp args)
                           (FeeRecipient args) (Random args) false) /\
    calls s' = calls s0 ++ [args_call args false].
Proof.
  split; [reflexivity|].
  exact (first_build_starts_at_once BlockToExecutableData getSealingBlock recommit
           args s0 eq_refl).
Defined.

Lemma goroutine_can_return_after_twelve_seconds_witness :
  reachable args s_late /\
  phase s_late = Scheduled /\
  born s_late + Second * 12 <= now s_late /\
  exists ls s',
    steps args s_late ls s' /\
    phase s' = Stopped /\
    payload s' = payload s_late /\ now s' = now s_late /\ calls s' = calls s_late.
Proof.
  assert (born s_late + Second * 12 <= now s_late) as Hle.
  { vm_compute. discriminate. }
  split; [exact s_late_reachable|].
  split; [reflexivity|].
  split; [exact Hle|].
  exact (goroutine_can_return_after_twelve_seconds BlockToExecutableData
           getSealingBlock recommit args s_late s_late_reachable eq_refl Hle).
Defined.

End OnDemo.
